(** * Mini-CRM lead distribution: operator selection, lead registry, contact ledger

    A shallow embedding of [mini_crm/models.py] and of the service functions
    of [mini_crm/main.py] ([get_or_create_lead], [choose_operator_for_source],
    [create_contact], [update_contact_status]), followed by the properties the
    design document states about them.

    Conventions.
    - Python [int] is [Z]; SQL [String] columns are [string]; a nullable
      column is an [option].
    - A table is the list of its rows in the order the storage returns them;
      [.first()] is [find], [.all()] is the list of the matching rows,
      [.count()] is its [length].
    - The random source ([uniform]), the clock reading ([utcnow]) and the
      primary key the storage assigns to a new row ([new_id]) are arguments
      of the functions that use them.
    - [upto] starts as the float [0.0], so [upto + weight] is a binary64
      addition: the integer weight is converted to the nearest float and the
      sum is rounded again.  Every value [upto] takes is an integer, so the
      accumulator is a [Z] and the two roundings are [round_binary64]; the
      draw [r] is a float, compared exactly as a rational.  The same loop
      in exact arithmetic is kept beside it as [accumulate].
    - A Python int bound to an [Integer] column must fit the 64-bit signed
      range of the storage; the driver raises [OverflowError] otherwise and
      nothing is written.
    - A function that takes the SQLAlchemy session is a computation in the
      monad [M]: it maps the committed database to an outcome (a value or a
      raised exception) and the database committed when it stops. *)

From Stdlib Require Import ZArith QArith List String Bool Lia Lqa.
Import ListNotations.
Local Open Scope string_scope.
Local Open Scope Z_scope.

(** ** models.py *)

Inductive ContactStatus : Type :=
| active
| closed.

Definition ContactStatus_eqb (a b : ContactStatus) : bool :=
  match a, b with
  | active, active | closed, closed => true
  | _, _ => false
  end.

Module Operator.
Record t : Type := Build
  { id : Z; name : string; is_active : bool; load_limit : Z }.
End Operator.

Module Lead.
Record t : Type := Build
  { id : Z; external_id : string; name : option string }.

Definition set_name (l : t) (n : option string) : t :=
  {| id := id l; external_id := external_id l; name := n |}.
End Lead.

Module Source.
Record t : Type := Build
  { id : Z; name : string; code : option string }.
End Source.

Module OperatorSourceWeight.
Record t : Type := Build
  { id : Z; operator_id : Z; source_id : Z; weight : Z }.
End OperatorSourceWeight.

Module Contact.
Record t : Type := Build
  { id : Z;
    lead_id : Z;
    source_id : Z;
    operator_id : option Z;
    status : ContactStatus;
    created_at : Z;
    payload : option string }.

Definition set_status (c : t) (s : ContactStatus) : t :=
  {| id := id c; lead_id := lead_id c; source_id := source_id c;
     operator_id := operator_id c; status := s;
     created_at := created_at c; payload := payload c |}.
End Contact.

(** The committed content of the five tables. *)
Record DB : Type := mkDB
  { operators : list Operator.t;
    leads : list Lead.t;
    sources : list Source.t;
    operator_source_weights : list OperatorSourceWeight.t;
    contacts : list Contact.t }.

Definition with_leads (db : DB) (ls : list Lead.t) : DB :=
  {| operators := operators db; leads := ls; sources := sources db;
     operator_source_weights := operator_source_weights db;
     contacts := contacts db |}.

Definition with_contacts (db : DB) (cs : list Contact.t) : DB :=
  {| operators := operators db; leads := leads db; sources := sources db;
     operator_source_weights := operator_source_weights db;
     contacts := cs |}.

(** ** Exceptions and the session monad *)

Inductive exn : Type :=
| HTTPException (status_code : Z) (detail : string)
| IntegrityError
| OverflowError.

Inductive outcome (A : Type) : Type :=
| Ok (a : A)
| Raise (e : exn).
Arguments Ok {A} a.
Arguments Raise {A} e.

Definition M (A : Type) : Type := DB -> outcome A * DB.

Definition ret {A} (a : A) : M A := fun db => (Ok a, db).

Definition bind {A B} (m : M A) (k : A -> M B) : M B :=
  fun db =>
    match m db with
    | (Ok a, db') => k a db'
    | (Raise e, db') => (Raise e, db')
    end.

Definition raise {A} (e : exn) : M A := fun db => (Raise e, db).

(** A read of the committed state. *)
Definition query {A} (f : DB -> A) : M A := fun db => (Ok (f db), db).

Declare Scope session_scope.
Delimit Scope session_scope with session.
Notation "x <- m ;; k" := (bind m (fun x => k))
  (at level 61, m at next level, right associativity) : session_scope.
Local Open Scope session_scope.

(** ** Truthiness of an optional string, as Python's [if name] *)

Definition truthy (s : option string) : bool :=
  match s with
  | Some EmptyString => false
  | Some _ => true
  | None => false
  end.

(** ** Queries *)

Definition get_source (db : DB) (source_id : Z) : option Source.t :=
  find (fun s => Source.id s =? source_id) (sources db).

Definition get_operator (db : DB) (operator_id : Z) : option Operator.t :=
  find (fun o => Operator.id o =? operator_id) (operators db).

Definition get_contact (db : DB) (contact_id : Z) : option Contact.t :=
  find (fun c => Contact.id c =? contact_id) (contacts db).

Definition get_lead_by_external_id (db : DB) (external_id : string)
  : option Lead.t :=
  find (fun l => String.eqb (Lead.external_id l) external_id) (leads db).

Definition option_Z_eqb (a : option Z) (b : Z) : bool :=
  match a with
  | Some x => x =? b
  | None => false
  end.

(** [db.query(Contact).filter(operator_id == op.id, status == active).count()] *)
Definition active_count (db : DB) (operator_id : Z) : Z :=
  Z.of_nat
    (List.length
       (filter
          (fun c =>
             option_Z_eqb (Contact.operator_id c) operator_id
             && ContactStatus_eqb (Contact.status c) active)
          (contacts db))).

(** The weight rows of a source joined to their operator, active operators
    only.  [operators.id] is the primary key, so a weight row joins at most
    one operator row, and that row is what [w.operator] loads. *)
Fixpoint join_operator (db : DB) (source_id : Z)
    (ws : list OperatorSourceWeight.t)
  : list (OperatorSourceWeight.t * Operator.t) :=
  match ws with
  | [] => []
  | w :: rest =>
      match get_operator db (OperatorSourceWeight.operator_id w) with
      | Some op =>
          if (OperatorSourceWeight.source_id w =? source_id)
             && Operator.is_active op
          then (w, op) :: join_operator db source_id rest
          else join_operator db source_id rest
      | None => join_operator db source_id rest
      end
  end.

Definition weights_of_source (db : DB) (source_id : Z)
  : list (OperatorSourceWeight.t * Operator.t) :=
  join_operator db source_id (operator_source_weights db).

(** ** choose_operator_for_source *)

(** The first loop: keep the rows of positive weight whose operator holds
    fewer active contacts than its load limit. *)
Fixpoint collect_candidates (db : DB)
    (weights : list (OperatorSourceWeight.t * Operator.t))
  : list (Operator.t * Z) :=
  match weights with
  | [] => []
  | (w, op) :: rest =>
      if OperatorSourceWeight.weight w <=? 0 then collect_candidates db rest
      else if active_count db (Operator.id op) <? Operator.load_limit op
      then (op, OperatorSourceWeight.weight w) :: collect_candidates db rest
      else collect_candidates db rest
  end.

Definition candidates_of (db : DB) (source_id : Z) : list (Operator.t * Z) :=
  collect_candidates db (weights_of_source db source_id).

(** [sum(weight for _, weight in candidates)] *)
Fixpoint total_weight (candidates : list (Operator.t * Z)) : Z :=
  match candidates with
  | [] => 0
  | (_, weight) :: rest => weight + total_weight rest
  end.

(** The second loop in exact arithmetic, with [upto] a rational; [None] when
    it runs to its end without returning. *)
Fixpoint accumulate (candidates : list (Operator.t * Z)) (upto r : Q)
  : option Operator.t :=
  match candidates with
  | [] => None
  | (op, weight) :: rest =>
      if Qle_bool r (upto + inject_Z weight) then Some op
      else accumulate rest (upto + inject_Z weight) r
  end.

(** The part of the function after the candidates are known, in exact
    arithmetic.  [uniform] is the random source ([random.uniform], which the
    tests replace). *)
Definition weighted_choice (uniform : Q -> Q -> Q)
    (candidates : list (Operator.t * Z)) : option Operator.t :=
  match candidates with
  | [] => None
  | c :: _ =>
      let r := uniform 0%Q (inject_Z (total_weight candidates)) in
      match accumulate candidates 0%Q r with
      | Some op => Some op
      | None => Some (fst (last candidates c))
      end
  end.

(** The binary64 value nearest to an integer, ties to the even significand:
    what the conversion of a Python int to a float and the float addition of
    two integer-valued floats return.  Integers below [2 ^ 53] in absolute
    value are floats themselves; a larger one keeps its 53 leading bits.  The
    exponent range is not modelled: the integers at hand come from 64-bit
    columns. *)
Definition round_binary64 (n : Z) : Z :=
  let a := Z.abs n in
  if a <? 2 ^ 53 then n
  else
    let e := Z.log2 a - 52 in
    let q := a / 2 ^ e in
    let rest := a mod 2 ^ e in
    let half := 2 ^ (e - 1) in
    let q' := if (half <? rest) || ((rest =? half) && Z.odd q)
              then q + 1 else q in
    Z.sgn n * (q' * 2 ^ e).

(** The second loop as the code runs it: [upto] is a float holding an
    integer, [upto + weight] converts [weight] and adds, both rounded, and
    [upto += weight] stores that same sum. *)
Fixpoint accumulate_binary64 (candidates : list (Operator.t * Z)) (upto : Z)
    (r : Q) : option Operator.t :=
  match candidates with
  | [] => None
  | (op, weight) :: rest =>
      let sum := round_binary64 (upto + round_binary64 weight) in
      if Qle_bool r (inject_Z sum) then Some op
      else accumulate_binary64 rest sum r
  end.

(** The part of the function after the candidates are known. *)
Definition weighted_choice_binary64 (uniform : Q -> Q -> Q)
    (candidates : list (Operator.t * Z)) : option Operator.t :=
  match candidates with
  | [] => None
  | c :: _ =>
      let r := uniform 0%Q (inject_Z (total_weight candidates)) in
      match accumulate_binary64 candidates 0 r with
      | Some op => Some op
      | None => Some (fst (last candidates c))
      end
  end.

Definition choose_operator_for_source (uniform : Q -> Q -> Q) (source_id : Z)
  : M (option Operator.t) :=
  weights <- query (fun db => weights_of_source db source_id) ;;
  candidates <- query (fun db => collect_candidates db weights) ;;
  ret (weighted_choice_binary64 uniform candidates).

(** ** Integers bound to an Integer column *)

(** Whether the driver can bind a Python int to an [Integer] column: the
    64-bit signed range. *)
Definition sqlite_integer (n : Z) : bool :=
  (- 2 ^ 63 <=? n) && (n <? 2 ^ 63).

(** ** get_or_create_lead *)

(** [models.Lead(external_id=external_id, name=name)] with the primary key
    the storage assigns on INSERT ([new_id], from the keys in use). *)
Definition new_lead (new_id : list Z -> Z) (db : DB) (external_id : string)
    (name : option string) : Lead.t :=
  {| Lead.id := new_id (map Lead.id (leads db));
     Lead.external_id := external_id;
     Lead.name := name |}.

(** [db.add(lead); db.commit(); db.refresh(lead)].  The INSERT is rejected
    when it would break the unique constraint on [external_id]; otherwise the
    row is appended. *)
Definition insert_lead (new_id : list Z -> Z) (external_id : string)
    (name : option string) : M Lead.t :=
  fun db =>
    if existsb (fun l => String.eqb (Lead.external_id l) external_id) (leads db)
    then (Raise IntegrityError, db)
    else
      let lead := new_lead new_id db external_id name in
      (Ok lead, with_leads db (leads db ++ [lead])).

(** What [UPDATE leads SET name = ? WHERE id = ?] does to one row. *)
Definition rename_lead (lead_id : Z) (name : option string) (l : Lead.t)
  : Lead.t :=
  if Lead.id l =? lead_id then Lead.set_name l name else l.

(** [lead.name = name; db.commit()]. *)
Definition update_lead_name (lead_id : Z) (name : option string) : M unit :=
  fun db => (Ok tt, with_leads db (map (rename_lead lead_id name) (leads db))).

Definition get_or_create_lead (new_id : list Z -> Z) (external_id : string)
    (name : option string) : M Lead.t :=
  lead <- query (fun db => get_lead_by_external_id db external_id) ;;
  match lead with
  | Some lead =>
      if truthy name && negb (truthy (Lead.name lead)) then
        _ <- update_lead_name (Lead.id lead) name ;;
        ret (Lead.set_name lead name)
      else ret lead
  | None => insert_lead new_id external_id name
  end.

(** The same body with another session committing [other] between the
    lookup and the insert: the interleaving of two concurrent calls. *)
Definition concurrently (other : DB -> DB) : M unit :=
  fun db => (Ok tt, other db).

Definition get_or_create_lead_raced (new_id : list Z -> Z) (other : DB -> DB)
    (external_id : string) (name : option string) : M Lead.t :=
  lead <- query (fun db => get_lead_by_external_id db external_id) ;;
  match lead with
  | Some lead =>
      if truthy name && negb (truthy (Lead.name lead)) then
        _ <- update_lead_name (Lead.id lead) name ;;
        ret (Lead.set_name lead name)
      else ret lead
  | None =>
      _ <- concurrently other ;;
      insert_lead new_id external_id name
  end.

(** ** create_contact *)

Record ContactCreate : Type := Build_ContactCreate
  { lead_external_id : string;
    lead_name : option string;
    source_id : Z;
    payload : option string }.

(** [db.add(db_contact); db.commit(); db.refresh(db_contact)]; [created_at]
    takes its column default, the clock reading [utcnow]. *)
Definition insert_contact (new_id : list Z -> Z) (utcnow : Z)
    (lead_id source_id : Z) (operator_id : option Z) (status : ContactStatus)
    (payload : option string) : M Contact.t :=
  fun db =>
    let c := {| Contact.id := new_id (map Contact.id (contacts db));
                Contact.lead_id := lead_id;
                Contact.source_id := source_id;
                Contact.operator_id := operator_id;
                Contact.status := status;
                Contact.created_at := utcnow;
                Contact.payload := payload |} in
    (Ok c, with_contacts db (contacts db ++ [c])).

Definition SourceNotFound : exn := HTTPException 404 "Source not found".
Definition ContactNotFound : exn := HTTPException 404 "Contact not found".

Definition create_contact (uniform : Q -> Q -> Q) (utcnow : Z)
    (new_id : list Z -> Z) (contact_in : ContactCreate) : M Contact.t :=
  source <- query (fun db => get_source db (source_id contact_in)) ;;
  match source with
  | None => raise SourceNotFound
  | Some source =>
      lead <- get_or_create_lead new_id (lead_external_id contact_in)
                (lead_name contact_in) ;;
      operator <- choose_operator_for_source uniform (Source.id source) ;;
      insert_contact new_id utcnow (Lead.id lead) (Source.id source)
        (option_map Operator.id operator) active (payload contact_in)
  end.

(** ** update_contact_status *)

(** What [UPDATE contacts SET status = ? WHERE id = ?] does to one row. *)
Definition restatus (contact_id : Z) (status : ContactStatus) (c : Contact.t)
  : Contact.t :=
  if Contact.id c =? contact_id then Contact.set_status c status else c.

(** [contact.status = update.status; db.commit()]. *)
Definition update_status (contact_id : Z) (status : ContactStatus) : M unit :=
  fun db =>
    (Ok tt, with_contacts db (map (restatus contact_id status) (contacts db))).

Definition update_contact_status (contact_id : Z) (status : ContactStatus)
  : M Contact.t :=
  contact <- query (fun db => get_contact db contact_id) ;;
  match contact with
  | None => raise ContactNotFound
  | Some contact =>
      _ <- update_status (Contact.id contact) status ;;
      ret (Contact.set_status contact status)
  end.

(** ** Operators: create_operator, list_operators, update_operator *)

Module OperatorCreate.
Record t : Type := Build
  { name : string; load_limit : Z }.
End OperatorCreate.

Module OperatorUpdate.
Record t : Type := Build
  { load_limit : option Z; is_active : option bool }.
End OperatorUpdate.

Definition with_operators (db : DB) (ops : list Operator.t) : DB :=
  {| operators := ops; leads := leads db; sources := sources db;
     operator_source_weights := operator_source_weights db;
     contacts := contacts db |}.

Definition with_sources (db : DB) (ss : list Source.t) : DB :=
  {| operators := operators db; leads := leads db; sources := ss;
     operator_source_weights := operator_source_weights db;
     contacts := contacts db |}.

Definition with_weights (db : DB) (ws : list OperatorSourceWeight.t) : DB :=
  {| operators := operators db; leads := leads db; sources := sources db;
     operator_source_weights := ws;
     contacts := contacts db |}.

(** [models.Operator(name=..., load_limit=...)]; [is_active] takes its column
    default [True].  The operators table has no constraint but its key. *)
Definition create_operator (new_id : list Z -> Z) (operator : OperatorCreate.t)
  : M Operator.t :=
  fun db =>
    if sqlite_integer (OperatorCreate.load_limit operator) then
      let db_operator :=
        {| Operator.id := new_id (map Operator.id (operators db));
           Operator.name := OperatorCreate.name operator;
           Operator.is_active := true;
           Operator.load_limit := OperatorCreate.load_limit operator |} in
      (Ok db_operator, with_operators db (operators db ++ [db_operator]))
    else (Raise OverflowError, db).

Definition list_operators : M (list Operator.t) := query operators.

(** The two conditional assignments of update_operator on one object. *)
Definition apply_update (update : OperatorUpdate.t) (o : Operator.t)
  : Operator.t :=
  {| Operator.id := Operator.id o;
     Operator.name := Operator.name o;
     Operator.is_active :=
       match OperatorUpdate.is_active update with
       | Some b => b
       | None => Operator.is_active o
       end;
     Operator.load_limit :=
       match OperatorUpdate.load_limit update with
       | Some n => n
       | None => Operator.load_limit o
       end |}.

(** What the UPDATE of the operator of key [operator_id] does to one row. *)
Definition revise_operator (operator_id : Z) (update : OperatorUpdate.t)
    (o : Operator.t) : Operator.t :=
  if Operator.id o =? operator_id then apply_update update o else o.

(** Whether the values of an update can be bound to their columns. *)
Definition update_fits (update : OperatorUpdate.t) : bool :=
  match OperatorUpdate.load_limit update with
  | Some n => sqlite_integer n
  | None => true
  end.

(** [db.commit()] after the assignments: the UPDATE is not sent when a new
    value cannot be bound. *)
Definition commit_operator (operator_id : Z) (update : OperatorUpdate.t)
  : M unit :=
  fun db =>
    if update_fits update then
      (Ok tt,
       with_operators db
         (map (revise_operator operator_id update) (operators db)))
    else (Raise OverflowError, db).

Definition OperatorNotFound : exn := HTTPException 404 "Operator not found".

Definition update_operator (operator_id : Z) (update : OperatorUpdate.t)
  : M Operator.t :=
  operator <- query (fun db => get_operator db operator_id) ;;
  match operator with
  | None => raise OperatorNotFound
  | Some operator =>
      _ <- commit_operator (Operator.id operator) update ;;
      ret (apply_update update operator)
  end.

(** ** Sources and weights: create_source, list_sources, set_weight,
    list_weights_for_source *)

Module SourceCreate.
Record t : Type := Build
  { name : string; code : option string }.
End SourceCreate.

Module WeightCreate.
Record t : Type := Build
  { operator_id : Z; source_id : Z; weight : Z }.
End WeightCreate.

(** Whether a stored source blocks the insert of [(name, code)]: [name] and
    [code] are both declared [unique=True]; a NULL code collides with
    nothing. *)
Definition source_clash (name : string) (code : option string) (s : Source.t)
  : bool :=
  String.eqb (Source.name s) name
  || match code, Source.code s with
     | Some c, Some c' => String.eqb c' c
     | _, _ => false
     end.

Definition create_source (new_id : list Z -> Z) (source : SourceCreate.t)
  : M Source.t :=
  fun db =>
    if existsb (source_clash (SourceCreate.name source) (SourceCreate.code source))
         (sources db)
    then (Raise IntegrityError, db)
    else
      let db_source :=
        {| Source.id := new_id (map Source.id (sources db));
           Source.name := SourceCreate.name source;
           Source.code := SourceCreate.code source |} in
      (Ok db_source, with_sources db (sources db ++ [db_source])).

Definition list_sources : M (list Source.t) := query sources.

Definition same_pair (operator_id source_id : Z) (w : OperatorSourceWeight.t)
  : bool :=
  (OperatorSourceWeight.operator_id w =? operator_id)
  && (OperatorSourceWeight.source_id w =? source_id).

Definition get_weight (db : DB) (operator_id source_id : Z)
  : option OperatorSourceWeight.t :=
  find (same_pair operator_id source_id) (operator_source_weights db).

(** Whether the two foreign keys of a weight row point at stored rows. *)
Definition references_exist (db : DB) (operator_id source_id : Z) : bool :=
  existsb (fun o => Operator.id o =? operator_id) (operators db)
  && existsb (fun s => Source.id s =? source_id) (sources db).

(** [db.add(weight); db.commit(); db.refresh(weight)].  The three integers
    are bound first.  [foreign_keys] says whether the storage enforces
    FOREIGN KEY constraints (the engine is set up in mini_crm/database.py);
    the INSERT is also rejected when it would break the unique constraint
    [uix_operator_source]. *)
Definition insert_weight (foreign_keys : bool) (new_id : list Z -> Z)
    (operator_id source_id weight : Z) : M OperatorSourceWeight.t :=
  fun db =>
    if negb (sqlite_integer operator_id && sqlite_integer source_id
             && sqlite_integer weight)
    then (Raise OverflowError, db)
    else if foreign_keys && negb (references_exist db operator_id source_id)
    then (Raise IntegrityError, db)
    else if existsb (same_pair operator_id source_id)
              (operator_source_weights db)
    then (Raise IntegrityError, db)
    else
      let w :=
        {| OperatorSourceWeight.id :=
             new_id (map OperatorSourceWeight.id (operator_source_weights db));
           OperatorSourceWeight.operator_id := operator_id;
           OperatorSourceWeight.source_id := source_id;
           OperatorSourceWeight.weight := weight |} in
      (Ok w, with_weights db (operator_source_weights db ++ [w])).

Definition put_weight (w : OperatorSourceWeight.t) (weight : Z)
  : OperatorSourceWeight.t :=
  {| OperatorSourceWeight.id := OperatorSourceWeight.id w;
     OperatorSourceWeight.operator_id := OperatorSourceWeight.operator_id w;
     OperatorSourceWeight.source_id := OperatorSourceWeight.source_id w;
     OperatorSourceWeight.weight := weight |}.

(** What the UPDATE of the weight row of key [weight_id] does to one row. *)
Definition reweigh (weight_id weight : Z) (w : OperatorSourceWeight.t)
  : OperatorSourceWeight.t :=
  if OperatorSourceWeight.id w =? weight_id then put_weight w weight else w.

(** [weight.weight = weight_in.weight; db.commit()]: the UPDATE is not sent
    when the new weight cannot be bound. *)
Definition update_weight (weight_id weight : Z) : M unit :=
  fun db =>
    if sqlite_integer weight then
      (Ok tt,
       with_weights db
         (map (reweigh weight_id weight) (operator_source_weights db)))
    else (Raise OverflowError, db).

Definition set_weight (foreign_keys : bool) (new_id : list Z -> Z)
    (weight_in : WeightCreate.t) : M OperatorSourceWeight.t :=
  weight <- query (fun db => get_weight db (WeightCreate.operator_id weight_in)
                               (WeightCreate.source_id weight_in)) ;;
  match weight with
  | None =>
      insert_weight foreign_keys new_id (WeightCreate.operator_id weight_in)
        (WeightCreate.source_id weight_in) (WeightCreate.weight weight_in)
  | Some weight =>
      _ <- update_weight (OperatorSourceWeight.id weight)
             (WeightCreate.weight weight_in) ;;
      ret (put_weight weight (WeightCreate.weight weight_in))
  end.

Definition list_weights_for_source (source_id : Z)
  : M (list OperatorSourceWeight.t) :=
  query (fun db =>
           filter (fun w => OperatorSourceWeight.source_id w =? source_id)
                  (operator_source_weights db)).

(** ** Leads and statistics: list_leads, stats_by_operator, stats_by_source *)

(** The [contacts] relationship of a lead. *)
Definition contacts_of_lead (db : DB) (lead_id : Z) : list Contact.t :=
  filter (fun c => Contact.lead_id c =? lead_id) (contacts db).

(** Each lead with its contacts, as LeadWithContactsOut serialises it. *)
Definition list_leads : M (list (Lead.t * list Contact.t)) :=
  query (fun db =>
           map (fun l => (l, contacts_of_lead db (Lead.id l))) (leads db)).

Module OperatorStatsOut.
Record t : Type := Build
  { operator_id : Z; operator_name : string; contacts_count : Z }.
End OperatorStatsOut.

Module SourceStatsOut.
Record t : Type := Build
  { source_id : Z; source_name : string; contacts_count : Z }.
End SourceStatsOut.

(** [count(contacts.id)] over the outer join on [contacts.operator_id]. *)
Definition contacts_of_operator (db : DB) (operator_id : Z) : list Contact.t :=
  filter (fun c => option_Z_eqb (Contact.operator_id c) operator_id)
         (contacts db).

Definition contacts_of_source (db : DB) (source_id : Z) : list Contact.t :=
  filter (fun c => Contact.source_id c =? source_id) (contacts db).

(** The query groups by the primary key, so each operator row is one group;
    an operator without contacts keeps its row, with count 0. *)
Definition stats_by_operator : M (list OperatorStatsOut.t) :=
  query (fun db =>
           map (fun o =>
                  OperatorStatsOut.Build (Operator.id o) (Operator.name o)
                    (Z.of_nat
                       (List.length (contacts_of_operator db (Operator.id o)))))
               (operators db)).

Definition stats_by_source : M (list SourceStatsOut.t) :=
  query (fun db =>
           map (fun s =>
                  SourceStatsOut.Build (Source.id s) (Source.name s)
                    (Z.of_nat
                       (List.length (contacts_of_source db (Source.id s)))))
               (sources db)).

(** ** The fixtures of tests/test_distribytion.py *)

Definition autoincrement (ids : list Z) : Z := 1 + fold_right Z.max 0 ids.

Definition empty_db : DB := mkDB [] [] [] [] [].

Definition op1 : Operator.t := Operator.Build 1 "Op1" true 10.
Definition op2 : Operator.t := Operator.Build 2 "Op2" true 10.

(** test_choose_operator_respects_weights *)
Definition weights_db : DB :=
  {| operators := [op1; op2];
     leads := [];
     sources := [Source.Build 1 "Bot A" (Some "bot_a")];
     operator_source_weights :=
       [OperatorSourceWeight.Build 1 1 1 1; OperatorSourceWeight.Build 2 2 1 3];
     contacts := [] |}.

Definition fixed_draw (r : Q) : Q -> Q -> Q := fun _ _ => r.

Definition limited_op : Operator.t := Operator.Build 1 "Limited Op" true 1.

(** test_choose_operator_respects_load_limit *)
Definition load_limit_db : DB :=
  {| operators := [limited_op];
     leads := [Lead.Build 1 "user_1" (Some "User 1")];
     sources := [Source.Build 1 "Bot B" (Some "bot_b")];
     operator_source_weights := [OperatorSourceWeight.Build 1 1 1 10];
     contacts :=
       [Contact.Build 1 1 1 (Some 1) active 0 (Some "first contact")] |}.

(** The state of the first test with weights beyond [2 ^ 53]. *)
Definition heavy_weights_db : DB :=
  with_weights weights_db
    [OperatorSourceWeight.Build 1 1 1 (2 ^ 53 + 3);
     OperatorSourceWeight.Build 2 2 1 10].

(** The same state after the contact was closed, and with a second contact. *)
Definition closed_contact_db : DB :=
  with_contacts load_limit_db
    [Contact.Build 1 1 1 (Some 1) closed 0 (Some "first contact");
     Contact.Build 2 1 1 None active 5 None].

(** The other session of the race: it commits a lead for "u1" first. *)
Definition winner : Lead.t := Lead.Build 1 "u1" (Some "Winner").
Definition winner_commits (db : DB) : DB := with_leads db (leads db ++ [winner]).

(** ** Vocabulary of the statements *)

(** Cumulative weight of the candidate at position [i]: the sum of the
    weights up to and including it. *)
Definition cumulative (candidates : list (Operator.t * Z)) (i : nat) : Z :=
  total_weight (firstn (S i) candidates).

(** The candidate condition in the words of the design document: a weight
    row of the source, of positive weight, whose operator is active and holds
    fewer active contacts than its load limit. *)
Definition eligible (db : DB) (source_id : Z) (op : Operator.t) (w : Z)
  : Prop :=
  exists row,
    In row (operator_source_weights db)
    /\ OperatorSourceWeight.source_id row = source_id
    /\ OperatorSourceWeight.weight row = w
    /\ get_operator db (OperatorSourceWeight.operator_id row) = Some op
    /\ Operator.is_active op = true
    /\ 0 < w
    /\ active_count db (Operator.id op) < Operator.load_limit op.

(** A series of calls to get_or_create_lead, one after the other, each given
    as its [(external_id, name)] arguments. *)
Fixpoint resolve_all (new_id : list Z -> Z)
    (calls : list (string * option string)) : M (list Lead.t) :=
  match calls with
  | [] => ret []
  | (external_id, name) :: rest =>
      lead <- get_or_create_lead new_id external_id name ;;
      others <- resolve_all new_id rest ;;
      ret (lead :: others)
  end.

(** The rows of the [leads] table that carry a given external id. *)
Definition leads_with (db : DB) (external_id : string) : list Lead.t :=
  filter (fun l => String.eqb (Lead.external_id l) external_id) (leads db).

(** Every operator holds at most as many active contacts as its limit. *)
Definition within_limits (db : DB) : Prop :=
  forall op,
    In op (operators db) ->
    active_count db (Operator.id op) <= Operator.load_limit op.

(** Whether a contact counts towards the load of an operator. *)
Definition counts_for (operator_id : Z) (c : Contact.t) : bool :=
  option_Z_eqb (Contact.operator_id c) operator_id
  && ContactStatus_eqb (Contact.status c) active.

(** The keys of the unique constraint on weight rows. *)
Definition weight_pairs (db : DB) : list (Z * Z) :=
  map (fun w => (OperatorSourceWeight.operator_id w,
                 OperatorSourceWeight.source_id w))
      (operator_source_weights db).

Definition sum_Z (l : list Z) : Z := fold_right Z.add 0 l.

(** The weight row set_weight inserts for a pair that has none. *)
Definition new_weight (new_id : list Z -> Z) (db : DB)
    (weight_in : WeightCreate.t) : OperatorSourceWeight.t :=
  {| OperatorSourceWeight.id :=
       new_id (map OperatorSourceWeight.id (operator_source_weights db));
     OperatorSourceWeight.operator_id := WeightCreate.operator_id weight_in;
     OperatorSourceWeight.source_id := WeightCreate.source_id weight_in;
     OperatorSourceWeight.weight := WeightCreate.weight weight_in |}.

(** Whether a contact is assigned to an operator. *)
Definition assigned (c : Contact.t) : bool :=
  match Contact.operator_id c with
  | Some _ => true
  | None => false
  end.

(** The value of the float accumulator once the candidate at position [i]
    has been added, starting from [upto]. *)
Fixpoint running_binary64 (candidates : list (Operator.t * Z)) (upto : Z)
    (i : nat) : Z :=
  match candidates with
  | [] => upto
  | (_, weight) :: rest =>
      let sum := round_binary64 (upto + round_binary64 weight) in
      match i with
      | O => sum
      | S i' => running_binary64 rest sum i'
      end
  end.

(** * Properties *)

(** ** The session monad *)

Lemma bind_ok {A B} (m : M A) (k : A -> M B) db a db' :
  m db = (Ok a, db') -> bind m k db = k a db'.
Proof. intros H. unfold bind. rewrite H. reflexivity. Qed.

(** ** Selection: the accumulation loop *)

Lemma cumulative_0 op w rest : cumulative ((op, w) :: rest) 0 = w.
Proof. unfold cumulative. simpl. lia. Qed.

Lemma cumulative_S op w rest i :
  cumulative ((op, w) :: rest) (S i) = w + cumulative rest i.
Proof. reflexivity. Qed.

Lemma accumulate_first candidates :
  forall upto r op,
    accumulate candidates upto r = Some op ->
    exists i w,
      nth_error candidates i = Some (op, w)
      /\ (r <= upto + inject_Z (cumulative candidates i))%Q
      /\ forall j, (j < i)%nat ->
                   (upto + inject_Z (cumulative candidates j) < r)%Q.
Proof.
  induction candidates as [|[op0 w0] rest IH]; intros upto r op H.
  - discriminate.
  - simpl in H.
    destruct (Qle_bool r (upto + inject_Z w0)) eqn:E.
    + injection H as <-. apply Qle_bool_iff in E.
      exists 0%nat, w0. rewrite cumulative_0.
      repeat split; [exact E | intros j Hj; lia].
    + assert (Hlt : (upto + inject_Z w0 < r)%Q).
      { apply Qnot_le_lt. intros C. apply Qle_bool_iff in C. congruence. }
      destruct (IH _ _ _ H) as (i & w & Hn & Hle & Hbefore).
      exists (S i), w. split; [exact Hn|]. split.
      * rewrite cumulative_S, inject_Z_plus. lra.
      * intros [|j] Hj.
        -- rewrite cumulative_0. exact Hlt.
        -- rewrite cumulative_S, inject_Z_plus.
           assert (Hj' : (j < i)%nat) by lia.
           specialize (Hbefore j Hj'). lra.
Qed.

Lemma accumulate_reaches candidates :
  forall upto r,
    candidates <> [] ->
    (r <= upto + inject_Z (total_weight candidates))%Q ->
    exists op, accumulate candidates upto r = Some op.
Proof.
  induction candidates as [|[op0 w0] rest IH]; intros upto r Hne Hle.
  - congruence.
  - simpl. destruct (Qle_bool r (upto + inject_Z w0)) eqn:E.
    + eauto.
    + assert (Hlt : (upto + inject_Z w0 < r)%Q).
      { apply Qnot_le_lt. intros C. apply Qle_bool_iff in C. congruence. }
      simpl in Hle. rewrite inject_Z_plus in Hle.
      destruct rest as [|c rest'].
      * simpl in Hle. exfalso. unfold inject_Z at 2 in Hle. lra.
      * apply IH; [discriminate | lra].
Qed.

Lemma accumulate_none candidates :
  forall upto r,
    (forall i, (i < List.length candidates)%nat ->
               (upto + inject_Z (cumulative candidates i) < r)%Q) ->
    accumulate candidates upto r = None.
Proof.
  induction candidates as [|[op0 w0] rest IH]; intros upto r H.
  - reflexivity.
  - simpl. destruct (Qle_bool r (upto + inject_Z w0)) eqn:E.
    + apply Qle_bool_iff in E.
      assert (H0 := H 0%nat ltac:(simpl; lia)).
      rewrite cumulative_0 in H0. lra.
    + apply IH. intros i Hi.
      assert (HS := H (S i) ltac:(simpl; lia)).
      rewrite cumulative_S, inject_Z_plus in HS. lra.
Qed.

(** ** Selection: the binary64 loop and the exact one *)

Lemma round_binary64_small n : Z.abs n < 2 ^ 53 -> round_binary64 n = n.
Proof.
  intros H. unfold round_binary64.
  destruct (Z.ltb_spec (Z.abs n) (2 ^ 53)) as [_ | Hge]; [reflexivity|].
  exfalso. apply (Z.lt_irrefl (2 ^ 53)).
  eapply Z.le_lt_trans; eassumption.
Qed.

Lemma collect_candidates_positive db weights :
  Forall (fun c => 0 < snd c) (collect_candidates db weights).
Proof.
  induction weights as [|[w op] rest IH]; simpl; [constructor|].
  destruct (Z.leb_spec (OperatorSourceWeight.weight w) 0); [exact IH|].
  destruct (active_count db (Operator.id op) <? Operator.load_limit op);
    [|exact IH].
  constructor; [simpl; assumption | exact IH].
Qed.

Lemma total_weight_positive_sum candidates :
  Forall (fun c => 0 < snd c) candidates -> 0 <= total_weight candidates.
Proof.
  induction 1 as [|[op w] rest Hw _ IH]; simpl in *; lia.
Qed.

(** While the running sum stays below [2 ^ 53] no addition rounds, and the
    loop the code runs returns what the exact loop returns. *)
Lemma accumulate_binary64_exact candidates :
  Forall (fun c => 0 < snd c) candidates ->
  forall upto r,
    0 <= upto ->
    upto + total_weight candidates < 2 ^ 53 ->
    accumulate_binary64 candidates upto r
    = accumulate candidates (inject_Z upto) r.
Proof.
  induction 1 as [|[op w] rest Hw Hrest IH]; intros upto r Hupto Hbound.
  - reflexivity.
  - simpl in Hw, Hbound.
    pose proof (total_weight_positive_sum rest Hrest) as Hnonneg.
    cbn [accumulate_binary64 accumulate].
    rewrite (round_binary64_small w)
      by (rewrite Z.abs_eq by lia; lia).
    rewrite (round_binary64_small (upto + w))
      by (rewrite Z.abs_eq by lia; lia).
    rewrite inject_Z_plus.
    destruct (Qle_bool r (inject_Z upto + inject_Z w)); [reflexivity|].
    rewrite IH by lia. rewrite inject_Z_plus. reflexivity.
Qed.

Lemma weighted_choice_binary64_exact uniform candidates :
  Forall (fun c => 0 < snd c) candidates ->
  total_weight candidates < 2 ^ 53 ->
  weighted_choice_binary64 uniform candidates
  = weighted_choice uniform candidates.
Proof.
  intros Hpos Hbound. unfold weighted_choice_binary64, weighted_choice.
  destruct candidates as [|c rest]; [reflexivity|].
  rewrite (accumulate_binary64_exact (c :: rest) Hpos 0) by lia.
  reflexivity.
Qed.

Lemma choose_operator_for_source_exact uniform source_id db :
  total_weight (candidates_of db source_id) < 2 ^ 53 ->
  choose_operator_for_source uniform source_id db
  = (Ok (weighted_choice uniform (candidates_of db source_id)), db).
Proof.
  intros Hbound.
  rewrite <- (weighted_choice_binary64_exact uniform)
    by (exact Hbound || apply collect_candidates_positive).
  reflexivity.
Qed.

Lemma choose_operator_for_source_eq uniform source_id db :
  choose_operator_for_source uniform source_id db
  = (Ok (weighted_choice_binary64 uniform (candidates_of db source_id)), db).
Proof. reflexivity. Qed.

Lemma weighted_choice_accumulate uniform candidates op :
  accumulate candidates 0%Q
    (uniform 0%Q (inject_Z (total_weight candidates))) = Some op ->
  weighted_choice uniform candidates = Some op.
Proof.
  intros H. unfold weighted_choice.
  destruct candidates as [|c rest]; [discriminate|].
  rewrite H. reflexivity.
Qed.

(** C1, as stated, fails: with the weights [2 ^ 53 + 3] and 10 and the draw
    [2 ^ 53 + 4], which is below the total, the first candidate whose
    cumulative weight reaches the draw is the second one, but the float sum
    [0.0 + (2 ^ 53 + 3)] rounds up to [2 ^ 53 + 4] and the first candidate is
    returned. *)
Lemma choose_first_reaching_draw_fails_beyond_2_53 :
  let candidates := candidates_of heavy_weights_db 1 in
  let r := inject_Z (2 ^ 53 + 4) in
  candidates = [(op1, 2 ^ 53 + 3); (op2, 10)]
  /\ (0 <= r)%Q
  /\ (r < inject_Z (total_weight candidates))%Q
  /\ (inject_Z (cumulative candidates 0) < r)%Q
  /\ (r <= inject_Z (cumulative candidates 1))%Q
  /\ choose_operator_for_source (fixed_draw r) 1 heavy_weights_db
     = (Ok (Some op1), heavy_weights_db)
  /\ ~ (forall uniform db source_id,
           let candidates := candidates_of db source_id in
           let r := uniform 0%Q (inject_Z (total_weight candidates)) in
           candidates <> [] ->
           (0 <= r)%Q ->
           (r < inject_Z (total_weight candidates))%Q ->
           exists i op w,
             nth_error candidates i = Some (op, w)
             /\ (r <= inject_Z (cumulative candidates i))%Q
             /\ (forall j, (j < i)%nat ->
                           (inject_Z (cumulative candidates j) < r)%Q)
             /\ choose_operator_for_source uniform source_id db
                = (Ok (Some op), db)).
Proof.
  intros candidates r.
  assert (Hrun : choose_operator_for_source (fixed_draw r) 1 heavy_weights_db
                 = (Ok (Some op1), heavy_weights_db))
    by (vm_compute; reflexivity).
  split; [reflexivity|].
  split; [vm_compute; discriminate|].
  split; [vm_compute; reflexivity|].
  split; [vm_compute; reflexivity|].
  split; [vm_compute; discriminate|].
  split; [exact Hrun|].
  intros Hclaim.
  destruct (Hclaim (fixed_draw r) heavy_weights_db 1)
    as (i & op & w & Hn & Hle & _ & Hch).
  - discriminate.
  - vm_compute. discriminate.
  - vm_compute. reflexivity.
  - rewrite Hrun in Hch. injection Hch as <-.
    destruct i as [|[|i]].
    + apply Hle. vm_compute. reflexivity.
    + simpl in Hn. discriminate Hn.
    + simpl in Hn. destruct i; discriminate Hn.
Qed.

(** C1, amended: for a non-empty candidate list whose total weight is below
    [2 ^ 53], so that no partial sum is rounded, and a draw [r] in
    [[0, total)], choose_operator_for_source returns the first candidate, in
    list order, whose cumulative weight is at least [r]; with the weights 1
    and 3 of the test fixture and the draw fixed at 2.5 of a total of 4, it
    returns the second operator. *)
Theorem choose_returns_first_reaching_draw :
  (forall uniform db source_id,
      let candidates := candidates_of db source_id in
      let r := uniform 0%Q (inject_Z (total_weight candidates)) in
      candidates <> [] ->
      total_weight candidates < 2 ^ 53 ->
      (0 <= r)%Q ->
      (r < inject_Z (total_weight candidates))%Q ->
      exists i op w,
        nth_error candidates i = Some (op, w)
        /\ (r <= inject_Z (cumulative candidates i))%Q
        /\ (forall j, (j < i)%nat ->
                      (inject_Z (cumulative candidates j) < r)%Q)
        /\ choose_operator_for_source uniform source_id db
           = (Ok (Some op), db))
  /\ candidates_of weights_db 1 = [(op1, 1); (op2, 3)]
  /\ total_weight (candidates_of weights_db 1) = 4
  /\ choose_operator_for_source (fixed_draw (5 # 2)) 1 weights_db
     = (Ok (Some op2), weights_db).
Proof.
  split; [|repeat split; reflexivity].
  intros uniform db source_id candidates r Hne Hbound _ Hlt.
  destruct (accumulate_reaches candidates 0%Q r Hne) as [op Hop]; [lra|].
  destruct (accumulate_first _ _ _ _ Hop) as (i & w & Hn & Hle & Hbefore).
  exists i, op, w. split; [exact Hn|]. split; [lra|]. split.
  - intros j Hj. specialize (Hbefore j Hj). lra.
  - rewrite choose_operator_for_source_exact by exact Hbound.
    fold candidates. rewrite (weighted_choice_accumulate uniform candidates op Hop).
    reflexivity.
Qed.

Lemma choose_returns_first_reaching_draw_witness :
  exists i op w,
    nth_error (candidates_of weights_db 1) i = Some (op, w)
    /\ (fixed_draw (5 # 2) 0%Q
          (inject_Z (total_weight (candidates_of weights_db 1)))
        <= inject_Z (cumulative (candidates_of weights_db 1) i))%Q
    /\ (forall j, (j < i)%nat ->
                  (inject_Z (cumulative (candidates_of weights_db 1) j)
                   < fixed_draw (5 # 2) 0%Q
                       (inject_Z (total_weight (candidates_of weights_db 1))))%Q)
    /\ choose_operator_for_source (fixed_draw (5 # 2)) 1 weights_db
       = (Ok (Some op), weights_db).
Proof.
  apply (proj1 choose_returns_first_reaching_draw (fixed_draw (5 # 2))
               weights_db 1).
  - discriminate.
  - vm_compute. reflexivity.
  - vm_compute. discriminate.
  - vm_compute. reflexivity.
Defined.



(** ** Selection: the candidate list *)

Lemma find_some_id {A} (key : A -> Z) (l : list A) k x :
  find (fun y => key y =? k) l = Some x -> In x l /\ key x = k.
Proof.
  intros H. apply find_some in H. destruct H as [Hin Hk].
  split; [exact Hin | lia].
Qed.

Lemma join_operator_In db source_id ws w op :
  In (w, op) (join_operator db source_id ws)
  <-> In w ws
      /\ get_operator db (OperatorSourceWeight.operator_id w) = Some op
      /\ OperatorSourceWeight.source_id w = source_id
      /\ Operator.is_active op = true.
Proof.
  induction ws as [|w0 rest IH]; simpl.
  - tauto.
  - destruct (get_operator db (OperatorSourceWeight.operator_id w0))
      as [op0|] eqn:Eop.
    + destruct (OperatorSourceWeight.source_id w0 =? source_id) eqn:Es;
        destruct (Operator.is_active op0) eqn:Ea; simpl;
        rewrite ?IH; split.
      * intros [Heq | (Hin & Hrest)]; [|tauto].
        injection Heq as <- <-. apply Z.eqb_eq in Es. tauto.
      * intros ([<- | Hin] & Hop & Hs & Ha); [|tauto].
        left. congruence.
      * tauto.
      * intros ([<- | Hin] & Hop & Hs & Ha); [|tauto]. congruence.
      * tauto.
      * intros ([<- | Hin] & Hop & Hs & Ha); [|tauto].
        apply Z.eqb_neq in Es. contradiction.
      * tauto.
      * intros ([<- | Hin] & Hop & Hs & Ha); [|tauto].
        apply Z.eqb_neq in Es. contradiction.
    + rewrite IH. split; [tauto|].
      intros ([<- | Hin] & Hop & Hrest); [congruence | tauto].
Qed.

Lemma collect_candidates_In db weights op wt :
  In (op, wt) (collect_candidates db weights)
  <-> exists w,
        In (w, op) weights
        /\ OperatorSourceWeight.weight w = wt
        /\ 0 < wt
        /\ active_count db (Operator.id op) < Operator.load_limit op.
Proof.
  induction weights as [|[w0 op0] rest IH]; simpl.
  - split; [tauto | intros (w & [] & _)].
  - destruct (Z.leb_spec (OperatorSourceWeight.weight w0) 0) as [Hw | Hw].
    + rewrite IH. split.
      * intros (w & Hin & Hrest). exists w. tauto.
      * intros (w & [Heq | Hin] & Hwt & Hpos & Hload).
        -- injection Heq as <- <-. lia.
        -- exists w. tauto.
    + destruct (Z.ltb_spec (active_count db (Operator.id op0))
                  (Operator.load_limit op0)) as [Hl | Hl].
      * simpl. rewrite IH. split.
        -- intros [Heq | (w & Hin & Hrest)].
           ++ injection Heq as <- <-. exists w0. tauto.
           ++ exists w. tauto.
        -- intros (w & [Heq | Hin] & Hwt & Hpos & Hload).
           ++ injection Heq as <- <-. left. congruence.
           ++ right. exists w. tauto.
      * rewrite IH. split.
        -- intros (w & Hin & Hrest). exists w. tauto.
        -- intros (w & [Heq | Hin] & Hwt & Hpos & Hload).
           ++ injection Heq as <- <-. lia.
           ++ exists w. tauto.
Qed.

(** The candidate list built by the code holds exactly the eligible pairs. *)
Lemma candidates_of_eligible db source_id op w :
  In (op, w) (candidates_of db source_id) <-> eligible db source_id op w.
Proof.
  unfold candidates_of, weights_of_source, eligible.
  rewrite collect_candidates_In. split.
  - intros (row & Hin & Hwt & Hpos & Hload).
    apply join_operator_In in Hin. exists row. tauto.
  - intros (row & Hin & Hs & Hwt & Hop & Ha & Hpos & Hload).
    exists row. rewrite join_operator_In. tauto.
Qed.

Lemma last_In {A} (l : list A) (d c : A) : In (last (c :: l) d) (c :: l).
Proof.
  revert c. induction l as [|x rest IH]; intros c.
  - left. reflexivity.
  - right. apply (IH x).
Qed.

Lemma last_default {A} (l : list A) (x d d' : A) :
  last (x :: l) d = last (x :: l) d'.
Proof.
  revert x. induction l as [|y rest IH]; intros x; [reflexivity|].
  apply (IH y).
Qed.

Lemma accumulate_binary64_In candidates :
  forall upto r op,
    accumulate_binary64 candidates upto r = Some op ->
    exists w, In (op, w) candidates.
Proof.
  induction candidates as [|[op0 w0] rest IH]; intros upto r op H.
  - discriminate.
  - simpl in H.
    destruct (Qle_bool r _).
    + injection H as <-. exists w0. left. reflexivity.
    + destruct (IH _ _ _ H) as [w Hin]. exists w. right. exact Hin.
Qed.

Lemma weighted_choice_binary64_In uniform candidates op :
  weighted_choice_binary64 uniform candidates = Some op ->
  exists w, In (op, w) candidates.
Proof.
  unfold weighted_choice_binary64.
  destruct candidates as [|c rest]; [discriminate|].
  destruct (accumulate_binary64 (c :: rest) 0 _) as [op'|] eqn:E; intros H;
    injection H as <-.
  - exact (accumulate_binary64_In _ _ _ _ E).
  - exists (snd (last (c :: rest) c)).
    rewrite <- surjective_pairing. apply last_In.
Qed.

Lemma weighted_choice_binary64_none uniform candidates :
  weighted_choice_binary64 uniform candidates = None <-> candidates = [].
Proof.
  unfold weighted_choice_binary64. destruct candidates as [|c rest].
  - tauto.
  - destruct (accumulate_binary64 (c :: rest) 0 _); split; discriminate.
Qed.

Lemma choose_some_eligible uniform source_id db op db' :
  choose_operator_for_source uniform source_id db = (Ok (Some op), db') ->
  db' = db /\ exists w, eligible db source_id op w.
Proof.
  rewrite choose_operator_for_source_eq. intros H.
  injection H as Hc <-. split; [reflexivity|].
  destruct (weighted_choice_binary64_In _ _ _ Hc) as [w Hin].
  exists w. apply candidates_of_eligible. exact Hin.
Qed.

Lemma eligible_facts db source_id op w :
  eligible db source_id op w ->
  In op (operators db)
  /\ get_operator db (Operator.id op) = Some op
  /\ Operator.is_active op = true
  /\ (exists row,
         In row (operator_source_weights db)
         /\ OperatorSourceWeight.source_id row = source_id
         /\ OperatorSourceWeight.operator_id row = Operator.id op
         /\ 0 < OperatorSourceWeight.weight row)
  /\ active_count db (Operator.id op) < Operator.load_limit op.
Proof.
  intros (row & Hin & Hs & Hw & Hop & Ha & Hpos & Hload).
  destruct (find_some_id Operator.id _ _ _ Hop) as [Hino Hid].
  repeat split; try assumption.
  - rewrite Hid. exact Hop.
  - exists row. repeat split; try assumption; [congruence | lia].
Qed.

(** ** The lead registry *)

Lemma find_none_existsb {A} (p : A -> bool) (l : list A) :
  find p l = None -> existsb p l = false.
Proof.
  induction l as [|x rest IH]; simpl; [reflexivity|].
  destruct (p x); [discriminate | exact IH].
Qed.

(** The three ways a call ends: the lead exists and is left alone, it exists
    and its name is back-filled, or it is created. *)
Lemma get_or_create_lead_cases new_id external_id name db :
  get_or_create_lead new_id external_id name db =
  match get_lead_by_external_id db external_id with
  | Some lead =>
      if truthy name && negb (truthy (Lead.name lead))
      then (Ok (Lead.set_name lead name),
            with_leads db (map (rename_lead (Lead.id lead) name) (leads db)))
      else (Ok lead, db)
  | None =>
      (Ok (new_lead new_id db external_id name),
       with_leads db (leads db ++ [new_lead new_id db external_id name]))
  end.
Proof.
  unfold get_or_create_lead, bind, query.
  destruct (get_lead_by_external_id db external_id) as [lead|] eqn:E.
  - destruct (truthy name && negb (truthy (Lead.name lead))); reflexivity.
  - unfold insert_lead.
    rewrite (find_none_existsb _ _ E). reflexivity.
Qed.

(** A call always returns a lead and writes to the [leads] table only. *)
Lemma get_or_create_lead_frame new_id external_id name db :
  exists lead ls,
    get_or_create_lead new_id external_id name db
    = (Ok lead, with_leads db ls).
Proof.
  rewrite get_or_create_lead_cases.
  destruct (get_lead_by_external_id db external_id) as [lead|].
  - destruct (truthy name && negb (truthy (Lead.name lead))).
    + eauto.
    + exists lead, (leads db). destruct db; reflexivity.
  - eauto.
Qed.

Lemma create_contact_found uniform utcnow new_id contact_in db source lead db1 :
  get_source db (source_id contact_in) = Some source ->
  get_or_create_lead new_id (lead_external_id contact_in)
    (lead_name contact_in) db = (Ok lead, db1) ->
  create_contact uniform utcnow new_id contact_in db
  = insert_contact new_id utcnow (Lead.id lead) (Source.id source)
      (option_map Operator.id
         (weighted_choice_binary64 uniform (candidates_of db1 (Source.id source))))
      active (payload contact_in) db1.
Proof.
  intros Hs Hl. unfold create_contact.
  unfold bind at 1. unfold query at 1. rewrite Hs.
  rewrite (bind_ok _ _ _ _ _ Hl).
  erewrite bind_ok by apply choose_operator_for_source_eq.
  reflexivity.
Qed.

Lemma create_contact_missing uniform utcnow new_id contact_in db :
  get_source db (source_id contact_in) = None ->
  create_contact uniform utcnow new_id contact_in db = (Raise SourceNotFound, db).
Proof.
  intros Hs. unfold create_contact, bind, query. rewrite Hs. reflexivity.
Qed.

(** C2: an operator returned by choose_operator_for_source is an active row
    of the operators table, has a weight row of strictly positive weight for
    the requested source, and holds strictly fewer active contacts than its
    load limit; so an operator whose weight rows for the source are all zero
    or negative, or whose active count has reached its load limit, is not
    returned; and a contact created with an operator reference names an
    operator that met these conditions in the state the selection read. *)
Theorem selected_operator_active_weighted_under_limit :
  (forall uniform db source_id op db',
      choose_operator_for_source uniform source_id db = (Ok (Some op), db') ->
      In op (operators db)
      /\ Operator.is_active op = true
      /\ (exists row,
             In row (operator_source_weights db)
             /\ OperatorSourceWeight.source_id row = source_id
             /\ OperatorSourceWeight.operator_id row = Operator.id op
             /\ 0 < OperatorSourceWeight.weight row)
      /\ active_count db (Operator.id op) < Operator.load_limit op)
  /\ (forall uniform db source_id op,
         get_operator db (Operator.id op) = Some op ->
         (forall row,
             In row (operator_source_weights db) ->
             OperatorSourceWeight.source_id row = source_id ->
             OperatorSourceWeight.operator_id row = Operator.id op ->
             OperatorSourceWeight.weight row <= 0)
         \/ Operator.load_limit op <= active_count db (Operator.id op) ->
         forall op',
           fst (choose_operator_for_source uniform source_id db)
           = Ok (Some op') ->
           Operator.id op' <> Operator.id op)
  /\ (forall uniform utcnow new_id contact_in db c db' oid,
         create_contact uniform utcnow new_id contact_in db = (Ok c, db') ->
         Contact.operator_id c = Some oid ->
         exists lead db1 op,
           get_or_create_lead new_id (lead_external_id contact_in)
             (lead_name contact_in) db = (Ok lead, db1)
           /\ get_operator db1 oid = Some op
           /\ Operator.is_active op = true
           /\ (exists row,
                  In row (operator_source_weights db1)
                  /\ OperatorSourceWeight.source_id row = source_id contact_in
                  /\ OperatorSourceWeight.operator_id row = oid
                  /\ 0 < OperatorSourceWeight.weight row)
           /\ active_count db1 oid < Operator.load_limit op).
Proof.
  split; [|split].
  - intros uniform db sid op db' H.
    destruct (choose_some_eligible _ _ _ _ _ H) as [_ [w He]].
    apply eligible_facts in He. tauto.
  - intros uniform db sid op Hop Hbad op' H Hid.
    destruct (choose_operator_for_source uniform sid db) as [o db'] eqn:E.
    simpl in H. subst o.
    destruct (choose_some_eligible _ _ _ _ _ E) as [_ [w He]].
    apply eligible_facts in He.
    destruct He as (_ & Hop' & _ & (row & Hin & Hs & Hoid & Hpos) & Hload).
    assert (op' = op) by (rewrite Hid in Hop'; congruence). subst op'.
    destruct Hbad as [Hw | Hl]; [|lia].
    specialize (Hw row Hin Hs Hoid). lia.
  - intros uniform utcnow new_id contact_in db c db' oid H Hoid.
    destruct (get_source db (source_id contact_in)) as [source|] eqn:Es.
    2:{ rewrite create_contact_missing in H by exact Es. discriminate. }
    destruct (get_or_create_lead_frame new_id (lead_external_id contact_in)
                (lead_name contact_in) db) as (lead & ls & Hl).
    rewrite (create_contact_found _ _ _ _ _ _ _ _ Es Hl) in H.
    unfold insert_contact in H. injection H as <- <-. simpl in Hoid.
    destruct (weighted_choice_binary64 uniform _) as [op|] eqn:Ec; [|discriminate].
    simpl in Hoid. injection Hoid as <-.
    destruct (weighted_choice_binary64_In _ _ _ Ec) as [w Hin].
    apply candidates_of_eligible, eligible_facts in Hin.
    destruct (find_some_id Source.id _ _ _ Es) as [_ Hsid].
    destruct Hin as (_ & Hop & Ha & (row & Hr1 & Hr2 & Hr3 & Hr4) & Hload).
    exists lead, (with_leads db ls), op.
    repeat split; try assumption.
    exists row. repeat split; try assumption. congruence.
Qed.

Lemma selected_operator_active_weighted_under_limit_witness :
  In op2 (operators weights_db)
  /\ Operator.is_active op2 = true
  /\ (exists row,
         In row (operator_source_weights weights_db)
         /\ OperatorSourceWeight.source_id row = 1
         /\ OperatorSourceWeight.operator_id row = Operator.id op2
         /\ 0 < OperatorSourceWeight.weight row)
  /\ active_count weights_db (Operator.id op2) < Operator.load_limit op2.
Proof.
  apply (proj1 selected_operator_active_weighted_under_limit
               (fixed_draw (5 # 2)) weights_db 1 op2 weights_db).
  reflexivity.
Defined.

Lemma no_candidates_iff db source_id :
  candidates_of db source_id = []
  <-> forall op w, ~ eligible db source_id op w.
Proof.
  split.
  - intros H op w He. apply candidates_of_eligible in He.
    rewrite H in He. exact He.
  - intros H. destruct (candidates_of db source_id) as [|[op w] rest] eqn:E;
      [reflexivity|].
    exfalso. apply (H op w). apply candidates_of_eligible.
    rewrite E. left. reflexivity.
Qed.

Lemma accumulate_binary64_none candidates :
  forall upto r,
    (forall i, (i < List.length candidates)%nat ->
               (inject_Z (running_binary64 candidates upto i) < r)%Q) ->
    accumulate_binary64 candidates upto r = None.
Proof.
  induction candidates as [|[op0 w0] rest IH]; intros upto r H.
  - reflexivity.
  - cbn [accumulate_binary64].
    destruct (Qle_bool r _) eqn:E.
    + apply Qle_bool_iff in E.
      assert (H0 := H 0%nat ltac:(simpl; lia)).
      cbn [running_binary64] in H0. lra.
    + apply IH. intros i Hi.
      exact (H (S i) ltac:(simpl; lia)).
Qed.

(** C3: choose_operator_for_source returns none exactly when no weight row
    of the source is eligible (active operator, positive weight, active count
    below the load limit); when the candidate list is not empty it returns an
    operator whatever the draw is, the last candidate being the fallback:
    it is returned when the float accumulator stays below the draw after
    every candidate, which for a total weight below [2 ^ 53] means that no
    cumulative weight reaches the draw; with a single weighted operator of
    load limit 1 that already holds one active contact, it returns none. *)
Theorem choose_none_iff_no_candidate :
  (forall uniform db source_id,
      choose_operator_for_source uniform source_id db = (Ok None, db)
      <-> forall op w, ~ eligible db source_id op w)
  /\ (forall uniform db source_id,
         candidates_of db source_id <> [] ->
         exists op,
           choose_operator_for_source uniform source_id db = (Ok (Some op), db))
  /\ (forall uniform db source_id c,
         let candidates := candidates_of db source_id in
         let r := uniform 0%Q (inject_Z (total_weight candidates)) in
         candidates <> [] ->
         (forall i, (i < List.length candidates)%nat ->
                    (inject_Z (running_binary64 candidates 0 i) < r)%Q) ->
         choose_operator_for_source uniform source_id db
         = (Ok (Some (fst (last candidates c))), db))
  /\ (forall uniform db source_id c,
         let candidates := candidates_of db source_id in
         let r := uniform 0%Q (inject_Z (total_weight candidates)) in
         candidates <> [] ->
         total_weight candidates < 2 ^ 53 ->
         (forall i, (i < List.length candidates)%nat ->
                    (inject_Z (cumulative candidates i) < r)%Q) ->
         choose_operator_for_source uniform source_id db
         = (Ok (Some (fst (last candidates c))), db))
  /\ (active_count load_limit_db (Operator.id limited_op)
      = Operator.load_limit limited_op
      /\ forall uniform,
           choose_operator_for_source uniform 1 load_limit_db
           = (Ok None, load_limit_db)).
Proof.
  split; [|split; [|split; [|split]]].
  - intros uniform db sid. rewrite <- no_candidates_iff.
    rewrite choose_operator_for_source_eq. split.
    + intros H. injection H as H. apply weighted_choice_binary64_none in H. exact H.
    + intros H. apply (weighted_choice_binary64_none uniform) in H. rewrite H.
      reflexivity.
  - intros uniform db sid Hne. rewrite choose_operator_for_source_eq.
    destruct (weighted_choice_binary64 uniform (candidates_of db sid)) as [op|] eqn:E.
    + eauto.
    + apply weighted_choice_binary64_none in E. contradiction.
  - intros uniform db sid c candidates r Hne Hall.
    rewrite choose_operator_for_source_eq. fold candidates.
    unfold weighted_choice_binary64.
    destruct candidates as [|c0 rest] eqn:E; [congruence|].
    fold r. rewrite accumulate_binary64_none by exact Hall.
    rewrite (last_default rest c0 c c0). reflexivity.
  - intros uniform db sid c candidates r Hne Hbound Hall.
    rewrite choose_operator_for_source_exact by exact Hbound.
    fold candidates. unfold weighted_choice.
    destruct candidates as [|c0 rest] eqn:E; [congruence|].
    fold r. rewrite accumulate_none.
    + rewrite (last_default rest c0 c c0). reflexivity.
    + intros i Hi. specialize (Hall i Hi). lra.
  - split; [reflexivity | intros uniform; reflexivity].
Qed.

Lemma choose_none_iff_no_candidate_witness :
  choose_operator_for_source (fixed_draw (9 # 2)) 1 weights_db
  = (Ok (Some (fst (last (candidates_of weights_db 1) (op1, 1)))), weights_db).
Proof.
  apply (proj1 (proj2 (proj2 (proj2 choose_none_iff_no_candidate)))
               (fixed_draw (9 # 2)) weights_db 1 (op1, 1)).
  - discriminate.
  - vm_compute. reflexivity.
  - intros i Hi. vm_compute in Hi.
    destruct i as [|[|i]]; [vm_compute; reflexivity .. | lia].
Defined.

(** ** The lead registry: what a call does to the table *)

Lemma find_map_stable {A} (p : A -> bool) (f : A -> A) (l : list A) :
  (forall x, p (f x) = p x) ->
  find p (map f l) = option_map f (find p l).
Proof.
  intros Hp. induction l as [|x rest IH]; simpl; [reflexivity|].
  rewrite Hp. destruct (p x); [reflexivity | exact IH].
Qed.

Lemma find_app_none {A} (p : A -> bool) (l l' : list A) :
  find p l = None -> find p (l ++ l') = find p l'.
Proof.
  induction l as [|x rest IH]; simpl; [reflexivity|].
  destruct (p x); [discriminate | exact IH].
Qed.

Lemma find_app_some {A} (p : A -> bool) (l l' : list A) x :
  find p l = Some x -> find p (l ++ l') = Some x.
Proof.
  induction l as [|y rest IH]; simpl; [discriminate|].
  destruct (p y); [tauto | exact IH].
Qed.

Lemma filter_map_stable {A} (p : A -> bool) (f : A -> A) (l : list A) :
  (forall x, p (f x) = p x) ->
  filter p (map f l) = map f (filter p l).
Proof.
  intros Hp. induction l as [|x rest IH]; simpl; [reflexivity|].
  rewrite Hp. destruct (p x); simpl; rewrite IH; reflexivity.
Qed.

Lemma rename_lead_id lead_id name l :
  Lead.id (rename_lead lead_id name l) = Lead.id l.
Proof. unfold rename_lead. destruct (Lead.id l =? lead_id); reflexivity. Qed.

Lemma rename_lead_external_id lead_id name l :
  Lead.external_id (rename_lead lead_id name l) = Lead.external_id l.
Proof. unfold rename_lead. destruct (Lead.id l =? lead_id); reflexivity. Qed.

Lemma rename_lead_self name l :
  rename_lead (Lead.id l) name l = Lead.set_name l name.
Proof. unfold rename_lead. rewrite Z.eqb_refl. reflexivity. Qed.

Lemma map_rename_ids lead_id name ls :
  map Lead.id (map (rename_lead lead_id name) ls) = map Lead.id ls.
Proof.
  rewrite map_map. apply map_ext. intros l. apply rename_lead_id.
Qed.

Lemma map_rename_external_ids lead_id name ls :
  map Lead.external_id (map (rename_lead lead_id name) ls)
  = map Lead.external_id ls.
Proof.
  rewrite map_map. apply map_ext. intros l. apply rename_lead_external_id.
Qed.

Lemma lookup_after_rename db lead_id name external_id :
  get_lead_by_external_id
    (with_leads db (map (rename_lead lead_id name) (leads db))) external_id
  = option_map (rename_lead lead_id name)
      (get_lead_by_external_id db external_id).
Proof.
  unfold get_lead_by_external_id. simpl. apply find_map_stable.
  intros l. rewrite rename_lead_external_id. reflexivity.
Qed.

(** After a call, the lookup by the same external id finds the lead the call
    returned. *)
Lemma get_or_create_lead_found_after new_id external_id name db :
  forall lead db',
    get_or_create_lead new_id external_id name db = (Ok lead, db') ->
    get_lead_by_external_id db' external_id = Some lead.
Proof.
  intros lead db'. rewrite get_or_create_lead_cases.
  destruct (get_lead_by_external_id db external_id) as [l0|] eqn:E.
  - destruct (truthy name && negb (truthy (Lead.name l0))); intros H;
      injection H as <- <-.
    + rewrite lookup_after_rename, E. simpl.
      rewrite rename_lead_self. reflexivity.
    + exact E.
  - intros H. injection H as <- <-.
    unfold get_lead_by_external_id in *. simpl.
    rewrite (find_app_none _ _ _ E). simpl.
    rewrite String.eqb_refl. reflexivity.
Qed.

(** A call on a table that already holds the external id returns that lead,
    under its identity, with the name back-filled or left as it is, and adds
    no row. *)
Lemma get_or_create_lead_existing new_id external_id name db stored :
  get_lead_by_external_id db external_id = Some stored ->
  exists lead db',
    get_or_create_lead new_id external_id name db = (Ok lead, db')
    /\ Lead.id lead = Lead.id stored
    /\ Lead.external_id lead = Lead.external_id stored
    /\ Lead.name lead
       = (if truthy name && negb (truthy (Lead.name stored))
          then name else Lead.name stored)
    /\ map Lead.id (leads db') = map Lead.id (leads db)
    /\ map Lead.external_id (leads db') = map Lead.external_id (leads db)
    /\ (truthy name && negb (truthy (Lead.name stored)) = false -> db' = db).
Proof.
  intros E. rewrite get_or_create_lead_cases, E.
  destruct (truthy name && negb (truthy (Lead.name stored))) eqn:B.
  - eexists _, _. split; [reflexivity|]. simpl.
    rewrite map_rename_ids, map_rename_external_ids.
    repeat split. discriminate.
  - eexists _, _. split; [reflexivity|]. repeat split.
Qed.

(** Any call, for any external id, keeps the lead found under [external_id]
    in place under the same identity and adds no row carrying it; a call for
    [external_id] itself returns that identity. *)
Lemma get_or_create_lead_step new_id external_id' name' db external_id stored :
  get_lead_by_external_id db external_id = Some stored ->
  exists lead db',
    get_or_create_lead new_id external_id' name' db = (Ok lead, db')
    /\ (exists stored',
           get_lead_by_external_id db' external_id = Some stored'
           /\ Lead.id stored' = Lead.id stored)
    /\ map Lead.id (leads_with db' external_id)
       = map Lead.id (leads_with db external_id)
    /\ (external_id' = external_id -> Lead.id lead = Lead.id stored).
Proof.
  intros E. rewrite get_or_create_lead_cases.
  destruct (get_lead_by_external_id db external_id') as [l0|] eqn:E'.
  - destruct (truthy name' && negb (truthy (Lead.name l0))).
    + eexists _, _. split; [reflexivity|]. split; [|split].
      * rewrite lookup_after_rename, E. simpl. eexists. split; [reflexivity|].
        apply rename_lead_id.
      * unfold leads_with. simpl. rewrite filter_map_stable.
        -- apply map_rename_ids.
        -- intros l. rewrite rename_lead_external_id. reflexivity.
      * intros ->. simpl. congruence.
    + eexists _, _. split; [reflexivity|]. split; [eauto|].
      split; [reflexivity|]. intros ->. congruence.
  - assert (Hne : external_id' <> external_id) by congruence.
    eexists _, _. split; [reflexivity|]. split; [|split].
    + exists stored. split; [|reflexivity].
      unfold get_lead_by_external_id in *. simpl.
      apply find_app_some. exact E.
    + unfold leads_with. simpl. rewrite filter_app. simpl.
      apply String.eqb_neq in Hne. rewrite Hne, app_nil_r. reflexivity.
    + intros Heq. contradiction.
Qed.

Lemma resolve_all_cons new_id external_id name rest db lead db1 others db2 :
  get_or_create_lead new_id external_id name db = (Ok lead, db1) ->
  resolve_all new_id rest db1 = (Ok others, db2) ->
  resolve_all new_id ((external_id, name) :: rest) db = (Ok (lead :: others), db2).
Proof.
  intros H1 H2. simpl. rewrite (bind_ok _ _ _ _ _ H1).
  rewrite (bind_ok _ _ _ _ _ H2). reflexivity.
Qed.

Lemma resolve_all_keeps_identity new_id calls :
  forall external_id db stored,
    get_lead_by_external_id db external_id = Some stored ->
    exists returned db',
      resolve_all new_id calls db = (Ok returned, db')
      /\ (exists stored',
             get_lead_by_external_id db' external_id = Some stored'
             /\ Lead.id stored' = Lead.id stored)
      /\ map Lead.id (leads_with db' external_id)
         = map Lead.id (leads_with db external_id)
      /\ (forall i name lead,
             nth_error calls i = Some (external_id, name) ->
             nth_error returned i = Some lead ->
             Lead.id lead = Lead.id stored).
Proof.
  induction calls as [|[eid' name'] rest IH]; intros external_id db stored E.
  - exists [], db. split; [reflexivity|]. split; [eauto|].
    split; [reflexivity|]. intros [|i] name lead H; discriminate.
  - destruct (get_or_create_lead_step new_id eid' name' db _ _ E)
      as (lead & db1 & Hcall & (stored1 & E1 & Hid1) & Hwith1 & Hret).
    destruct (IH external_id db1 stored1 E1)
      as (others & db2 & Hall & (stored2 & E2 & Hid2) & Hwith2 & Hrets).
    exists (lead :: others), db2.
    split; [exact (resolve_all_cons _ _ _ _ _ _ _ _ _ Hcall Hall)|].
    split; [exists stored2; split; [exact E2 | congruence]|].
    split; [congruence|].
    intros [|i] name l Hc Hl; simpl in Hc, Hl.
    + injection Hc as -> _. injection Hl as <-. apply Hret. reflexivity.
    + rewrite (Hrets i name l Hc Hl). exact Hid1.
Qed.

Lemma NoDup_map_eq {A B} (f : A -> B) (l : list A) x y :
  NoDup (map f l) -> In x l -> In y l -> f x = f y -> x = y.
Proof.
  induction l as [|a rest IH]; simpl; intros Hnd Hx Hy Hf; [contradiction|].
  inversion Hnd as [|? ? Hnotin Hnd']; subst.
  destruct Hx as [-> | Hx], Hy as [-> | Hy].
  - reflexivity.
  - exfalso. apply Hnotin. rewrite Hf. apply in_map. exact Hy.
  - exfalso. apply Hnotin. rewrite <- Hf. apply in_map. exact Hx.
  - apply IH; assumption.
Qed.

Lemma NoDup_snoc {A} (l : list A) x : NoDup l -> ~ In x l -> NoDup (l ++ [x]).
Proof.
  induction l as [|a rest IH]; simpl; intros Hnd Hx.
  - constructor; [tauto | constructor].
  - inversion Hnd as [|? ? Hnotin Hnd']; subst. constructor.
    + rewrite in_app_iff. simpl. intros [H | [H | []]]; [tauto|].
      apply Hx. left. symmetry. exact H.
    + apply IH; tauto.
Qed.

(** One call keeps every lead whose name is set, and keeps the primary keys
    distinct when the storage hands out unused keys. *)
Lemma get_or_create_lead_keeps_named new_id external_id name db l :
  NoDup (map Lead.id (leads db)) ->
  (forall ids, ~ In (new_id ids) ids) ->
  In l (leads db) ->
  truthy (Lead.name l) = true ->
  exists lead db',
    get_or_create_lead new_id external_id name db = (Ok lead, db')
    /\ NoDup (map Lead.id (leads db'))
    /\ In l (leads db').
Proof.
  intros Hnd Hfresh Hin Hname. rewrite get_or_create_lead_cases.
  destruct (get_lead_by_external_id db external_id) as [l0|] eqn:E.
  - destruct (truthy name && negb (truthy (Lead.name l0))) eqn:B.
    + eexists _, _. split; [reflexivity|]. simpl.
      rewrite map_rename_ids. split; [exact Hnd|].
      apply in_map_iff. exists l. split; [|exact Hin].
      unfold rename_lead. destruct (Z.eqb_spec (Lead.id l) (Lead.id l0)) as [Hid|];
        [|reflexivity].
      apply find_some in E. destruct E as [Hin0 _].
      assert (l = l0) by (eapply NoDup_map_eq; eassumption). subst l0.
      rewrite Hname in B. rewrite andb_false_r in B. discriminate.
    + eexists _, _. split; [reflexivity|]. tauto.
  - eexists _, _. split; [reflexivity|]. simpl. split.
    + rewrite map_app. simpl. apply NoDup_snoc; [exact Hnd | apply Hfresh].
    + apply in_or_app. left. exact Hin.
Qed.

Lemma resolve_all_keeps_named new_id calls :
  forall db l,
    NoDup (map Lead.id (leads db)) ->
    (forall ids, ~ In (new_id ids) ids) ->
    In l (leads db) ->
    truthy (Lead.name l) = true ->
    exists returned db',
      resolve_all new_id calls db = (Ok returned, db') /\ In l (leads db').
Proof.
  induction calls as [|[eid name] rest IH]; intros db l Hnd Hfresh Hin Hname.
  - exists [], db. split; [reflexivity | exact Hin].
  - destruct (get_or_create_lead_keeps_named new_id eid name db l
                Hnd Hfresh Hin Hname) as (lead & db1 & Hcall & Hnd1 & Hin1).
    destruct (IH db1 l Hnd1 Hfresh Hin1 Hname) as (others & db2 & Hall & Hin2).
    exists (lead :: others), db2. split; [|exact Hin2].
    exact (resolve_all_cons _ _ _ _ _ _ _ _ _ Hcall Hall).
Qed.

Lemma fold_max_ge (ids : list Z) x : In x ids -> x <= fold_right Z.max 0 ids.
Proof.
  induction ids as [|a rest IH]; simpl; [tauto|].
  intros [-> | H]; [lia|]. specialize (IH H). lia.
Qed.

Lemma autoincrement_fresh ids : ~ In (autoincrement ids) ids.
Proof.
  intros H. apply fold_max_ge in H. unfold autoincrement in H. lia.
Qed.

(** C5: get_or_create_lead is idempotent in the external id.  Two calls in
    a row for one external id return the same lead identity and the second
    adds no row; once a lead is stored under an external id, no series of
    later calls adds a row carrying that id, and every call for it returns
    the stored identity.  The name changes only when the stored name is empty
    or absent and the supplied one is non-empty; a lead whose name is set
    stays as it is through any series of calls. *)
Theorem get_or_create_lead_idempotent :
  (forall new_id external_id name1 name2 db,
      exists lead1 db1 lead2 db2,
        get_or_create_lead new_id external_id name1 db = (Ok lead1, db1)
        /\ get_or_create_lead new_id external_id name2 db1 = (Ok lead2, db2)
        /\ Lead.id lead2 = Lead.id lead1
        /\ map Lead.id (leads db2) = map Lead.id (leads db1)
        /\ Lead.name lead2
           = (if truthy name2 && negb (truthy (Lead.name lead1))
              then name2 else Lead.name lead1))
  /\ (forall new_id calls external_id db stored,
         get_lead_by_external_id db external_id = Some stored ->
         exists returned db',
           resolve_all new_id calls db = (Ok returned, db')
           /\ (exists stored',
                  get_lead_by_external_id db' external_id = Some stored'
                  /\ Lead.id stored' = Lead.id stored)
           /\ map Lead.id (leads_with db' external_id)
              = map Lead.id (leads_with db external_id)
           /\ (forall i name lead,
                  nth_error calls i = Some (external_id, name) ->
                  nth_error returned i = Some lead ->
                  Lead.id lead = Lead.id stored))
  /\ (forall new_id external_id name db stored,
         get_lead_by_external_id db external_id = Some stored ->
         exists lead db',
           get_or_create_lead new_id external_id name db = (Ok lead, db')
           /\ Lead.id lead = Lead.id stored
           /\ Lead.name lead
              = (if truthy name && negb (truthy (Lead.name stored))
                 then name else Lead.name stored)
           /\ (truthy name && negb (truthy (Lead.name stored)) = false ->
               db' = db))
  /\ (forall new_id calls db l,
         NoDup (map Lead.id (leads db)) ->
         (forall ids, ~ In (new_id ids) ids) ->
         In l (leads db) ->
         truthy (Lead.name l) = true ->
         exists returned db',
           resolve_all new_id calls db = (Ok returned, db')
           /\ In l (leads db'))
  /\ resolve_all autoincrement [("u1", Some "Alice"); ("u1", None)] empty_db
     = (Ok [Lead.Build 1 "u1" (Some "Alice"); Lead.Build 1 "u1" (Some "Alice")],
        with_leads empty_db [Lead.Build 1 "u1" (Some "Alice")])
  /\ resolve_all autoincrement
       [("u1", Some EmptyString); ("u1", Some "Bob"); ("u1", Some "Carol")]
       empty_db
     = (Ok [Lead.Build 1 "u1" (Some EmptyString); Lead.Build 1 "u1" (Some "Bob");
            Lead.Build 1 "u1" (Some "Bob")],
        with_leads empty_db [Lead.Build 1 "u1" (Some "Bob")]).
Proof.
  split; [|split; [|split; [|split; [|split; reflexivity]]]].
  - intros new_id eid name1 name2 db.
    destruct (get_or_create_lead_frame new_id eid name1 db)
      as (lead1 & ls & H1).
    pose proof (get_or_create_lead_found_after _ _ _ _ _ _ H1) as E1.
    destruct (get_or_create_lead_existing new_id eid name2 _ _ E1)
      as (lead2 & db2 & H2 & Hid & _ & Hname & Hids & _).
    exists lead1, (with_leads db ls), lead2, db2. tauto.
  - intros new_id calls eid db stored E.
    apply resolve_all_keeps_identity. exact E.
  - intros new_id eid name db stored E.
    destruct (get_or_create_lead_existing new_id eid name _ _ E)
      as (lead & db' & H & Hid & _ & Hname & _ & _ & Hsame).
    exists lead, db'. tauto.
  - intros new_id calls db l. apply resolve_all_keeps_named.
Qed.

Lemma get_or_create_lead_idempotent_witness :
  exists returned db',
    resolve_all autoincrement [("u1", Some "Bob"); ("u2", Some "Carol")]
      (with_leads empty_db [Lead.Build 1 "u1" (Some "Alice")])
    = (Ok returned, db')
    /\ In (Lead.Build 1 "u1" (Some "Alice")) (leads db').
Proof.
  apply (proj1 (proj2 (proj2 (proj2 get_or_create_lead_idempotent)))
               autoincrement [("u1", Some "Bob"); ("u2", Some "Carol")]
               (with_leads empty_db [Lead.Build 1 "u1" (Some "Alice")])
               (Lead.Build 1 "u1" (Some "Alice"))).
  - simpl. constructor; [simpl; tauto | constructor].
  - apply autoincrement_fresh.
  - simpl. left. reflexivity.
  - reflexivity.
Defined.

(** ** Missing sources *)

Lemma join_operator_no_row db source_id ws :
  (forall row, In row ws -> OperatorSourceWeight.source_id row <> source_id) ->
  join_operator db source_id ws = [].
Proof.
  induction ws as [|w rest IH]; intros H; simpl; [reflexivity|].
  assert (Hw : OperatorSourceWeight.source_id w <> source_id)
    by (apply H; left; reflexivity).
  apply Z.eqb_neq in Hw. rewrite Hw. simpl.
  rewrite IH by (intros row Hin; apply H; right; exact Hin).
  destruct (get_operator db (OperatorSourceWeight.operator_id w)); reflexivity.
Qed.




(** C10: create_contact with a source id that names no source stops at the
    source check: it raises with the database as it was, so no lead is
    created, no name is back-filled and no contact is inserted, also when the
    lead resolution alone would have written. *)
Theorem create_contact_missing_source_writes_nothing :
  (forall uniform utcnow new_id contact_in db,
      get_source db (source_id contact_in) = None ->
      exists e,
        create_contact uniform utcnow new_id contact_in db = (Raise e, db))
  /\ (snd (get_or_create_lead autoincrement "u1" (Some "Alice") weights_db)
      <> weights_db
      /\ snd (create_contact (fixed_draw (5 # 2)) 0 autoincrement
                (Build_ContactCreate "u1" (Some "Alice") 2 None) weights_db)
         = weights_db).
Proof.
  split.
  - intros uniform utcnow new_id contact_in db Hs.
    exists SourceNotFound. apply create_contact_missing. exact Hs.
  - split; [|reflexivity]. intros H.
    apply (f_equal leads) in H. discriminate H.
Qed.

Lemma create_contact_missing_source_writes_nothing_witness :
  exists e,
    create_contact (fixed_draw (5 # 2)) 0 autoincrement
      (Build_ContactCreate "u1" (Some "Alice") 2 None) weights_db
    = (Raise e, weights_db).
Proof.
  apply (proj1 create_contact_missing_source_writes_nothing
               (fixed_draw (5 # 2)) 0 autoincrement
               (Build_ContactCreate "u1" (Some "Alice") 2 None) weights_db).
  reflexivity.
Defined.

(** ** Two calls racing to create one lead *)

Lemma find_some_existsb {A} (p : A -> bool) (l : list A) x :
  find p l = Some x -> existsb p l = true.
Proof.
  intros H. apply find_some in H. apply existsb_exists. exists x. exact H.
Qed.

Lemma get_or_create_lead_raced_alone new_id external_id name db :
  get_or_create_lead_raced new_id (fun d => d) external_id name db
  = get_or_create_lead new_id external_id name db.
Proof.
  unfold get_or_create_lead_raced, get_or_create_lead, bind, query, concurrently.
  destruct (get_lead_by_external_id db external_id); reflexivity.
Qed.

(** C7, as stated, fails: when the other session has committed the lead
    between the lookup and the insert, the call ends in the constraint
    violation instead of returning the lead that is there. *)
Lemma raced_creation_propagates_violation :
  get_lead_by_external_id empty_db "u1" = None
  /\ get_lead_by_external_id (winner_commits empty_db) "u1" = Some winner
  /\ get_or_create_lead_raced autoincrement winner_commits "u1" (Some "Loser")
       empty_db
     = (Raise IntegrityError, winner_commits empty_db)
  /\ ~ (forall new_id other external_id name db existing,
           get_lead_by_external_id db external_id = None ->
           get_lead_by_external_id (other db) external_id = Some existing ->
           fst (get_or_create_lead_raced new_id other external_id name db)
           = Ok existing).
Proof.
  split; [reflexivity|]. split; [reflexivity|]. split; [reflexivity|].
  intros H.
  specialize (H autoincrement winner_commits "u1" (Some "Loser") empty_db
                winner eq_refl eq_refl).
  discriminate H.
Qed.

(** C7, amended: when the insert of a new lead is rejected by the unique
    constraint because another session committed that external id after the
    lookup, get_or_create_lead does not look up again: the IntegrityError
    reaches the caller and the call writes nothing; with no other session in
    between, the call is the plain get_or_create_lead. *)
Theorem raced_creation_raises_integrity_error :
  (forall new_id other external_id name db existing,
      get_lead_by_external_id db external_id = None ->
      get_lead_by_external_id (other db) external_id = Some existing ->
      get_or_create_lead_raced new_id other external_id name db
      = (Raise IntegrityError, other db))
  /\ (forall new_id external_id name db,
         get_or_create_lead_raced new_id (fun d => d) external_id name db
         = get_or_create_lead new_id external_id name db).
Proof.
  split.
  - intros new_id other eid name db existing Hnone Hsome.
    unfold get_or_create_lead_raced, bind, query, concurrently.
    rewrite Hnone. unfold insert_lead.
    unfold get_lead_by_external_id in Hsome.
    rewrite (find_some_existsb _ _ _ Hsome). reflexivity.
  - apply get_or_create_lead_raced_alone.
Qed.

Lemma raced_creation_raises_integrity_error_witness :
  get_or_create_lead_raced autoincrement winner_commits "u1" (Some "Loser")
    empty_db
  = (Raise IntegrityError, winner_commits empty_db).
Proof.
  apply (proj1 raced_creation_raises_integrity_error autoincrement
               winner_commits "u1" (Some "Loser") empty_db winner);
    reflexivity.
Defined.

(** ** The contact ledger *)

(** C8: for a contact event whose source exists, create_contact resolves the
    lead, then stores exactly one new contact: the contacts table after the
    call is the table before it followed by that contact, and no other table
    changes beyond what the lead resolution wrote.  The contact's status is
    active, it references the resolved lead and the source found, it carries
    the payload as supplied, and its operator reference is the id of the
    operator the selection returned, or none when the selection returned
    none. *)
Theorem create_contact_records_one_active_contact :
  forall uniform utcnow new_id contact_in db source,
    get_source db (source_id contact_in) = Some source ->
    exists lead db1 c db',
      get_or_create_lead new_id (lead_external_id contact_in)
        (lead_name contact_in) db = (Ok lead, db1)
      /\ create_contact uniform utcnow new_id contact_in db = (Ok c, db')
      /\ contacts db' = (contacts db ++ [c])%list
      /\ In c (contacts db')
      /\ List.length (contacts db') = S (List.length (contacts db))
      /\ leads db' = leads db1
      /\ operators db' = operators db
      /\ sources db' = sources db
      /\ operator_source_weights db' = operator_source_weights db
      /\ Contact.status c = active
      /\ Contact.lead_id c = Lead.id lead
      /\ get_lead_by_external_id db' (lead_external_id contact_in) = Some lead
      /\ Contact.source_id c = source_id contact_in
      /\ Contact.source_id c = Source.id source
      /\ Contact.payload c = payload contact_in
      /\ Contact.created_at c = utcnow
      /\ (forall chosen,
             choose_operator_for_source uniform (source_id contact_in) db1
             = (Ok chosen, db1) ->
             Contact.operator_id c = option_map Operator.id chosen)
      /\ (choose_operator_for_source uniform (source_id contact_in) db1
          = (Ok None, db1) ->
          Contact.operator_id c = None /\ Contact.status c = active).
Proof.
  intros uniform utcnow new_id contact_in db source Hs.
  destruct (get_or_create_lead_frame new_id (lead_external_id contact_in)
              (lead_name contact_in) db) as (lead & ls & Hl).
  destruct (find_some_id Source.id _ _ _ Hs) as [_ Hsid].
  pose proof (get_or_create_lead_found_after _ _ _ _ _ _ Hl) as Hfound.
  eexists lead, (with_leads db ls), _, _.
  split; [exact Hl|].
  split; [rewrite (create_contact_found _ _ _ _ _ _ _ _ Hs Hl); reflexivity|].
  split; [reflexivity|].
  split; [simpl; apply in_or_app; right; left; reflexivity|].
  split; [simpl; rewrite length_app; simpl; lia|].
  do 6 (split; [reflexivity|]).
  split; [exact Hfound|].
  split; [exact Hsid|].
  do 3 (split; [reflexivity|]).
  split.
  - intros chosen Hc. rewrite choose_operator_for_source_eq in Hc.
    injection Hc as <-. simpl. rewrite Hsid. reflexivity.
  - intros Hnone. rewrite choose_operator_for_source_eq in Hnone.
    injection Hnone as Hnone. simpl. rewrite Hsid, Hnone.
    split; reflexivity.
Qed.

Lemma create_contact_records_one_active_contact_witness :
  exists lead db1 c db',
    get_or_create_lead autoincrement "user_2" (Some "User 2") load_limit_db
    = (Ok lead, db1)
    /\ create_contact (fixed_draw (5 # 2)) 7 autoincrement
         (Build_ContactCreate "user_2" (Some "User 2") 1 (Some "{not json"))
         load_limit_db
       = (Ok c, db')
    /\ contacts db' = (contacts load_limit_db ++ [c])%list
    /\ In c (contacts db')
    /\ List.length (contacts db') = S (List.length (contacts load_limit_db))
    /\ leads db' = leads db1
    /\ operators db' = operators load_limit_db
    /\ sources db' = sources load_limit_db
    /\ operator_source_weights db' = operator_source_weights load_limit_db
    /\ Contact.status c = active
    /\ Contact.lead_id c = Lead.id lead
    /\ get_lead_by_external_id db' "user_2" = Some lead
    /\ Contact.source_id c = 1
    /\ Contact.source_id c = 1
    /\ Contact.payload c = Some "{not json"
    /\ Contact.created_at c = 7
    /\ (forall chosen,
           choose_operator_for_source (fixed_draw (5 # 2)) 1 db1
           = (Ok chosen, db1) ->
           Contact.operator_id c = option_map Operator.id chosen)
    /\ (choose_operator_for_source (fixed_draw (5 # 2)) 1 db1 = (Ok None, db1) ->
        Contact.operator_id c = None /\ Contact.status c = active).
Proof.
  apply (create_contact_records_one_active_contact (fixed_draw (5 # 2)) 7
           autoincrement
           (Build_ContactCreate "user_2" (Some "User 2") 1 (Some "{not json"))
           load_limit_db (Source.Build 1 "Bot B" (Some "bot_b"))).
  reflexivity.
Defined.

Lemma restatus_id contact_id status c :
  Contact.id (restatus contact_id status c) = Contact.id c.
Proof. unfold restatus. destruct (Contact.id c =? contact_id); reflexivity. Qed.

Lemma get_contact_after_update db contact_id status contact_id' :
  get_contact
    (with_contacts db (map (restatus contact_id status) (contacts db)))
    contact_id'
  = option_map (restatus contact_id status) (get_contact db contact_id').
Proof.
  unfold get_contact. simpl. apply find_map_stable.
  intros c. rewrite restatus_id. reflexivity.
Qed.

Lemma update_contact_status_found contact_id status db c :
  get_contact db contact_id = Some c ->
  update_contact_status contact_id status db
  = (Ok (Contact.set_status c status),
     with_contacts db (map (restatus contact_id status) (contacts db))).
Proof.
  intros H. unfold update_contact_status, bind, query. rewrite H.
  destruct (find_some_id Contact.id _ _ _ H) as [_ Hid].
  unfold update_status, ret. rewrite Hid. reflexivity.
Qed.

(** C9: for a contact id that exists and either status, update_contact_status
    returns the contact with the status overwritten, whatever it was before
    (closed to active included), and with its lead, source, operator,
    creation time and payload as they were; in the table, the row of that id
    gets the new status and keeps its other fields, every row of another id
    is unchanged, and the other tables are untouched. *)
Theorem update_contact_status_overwrites_status_only :
  forall contact_id status db c,
    get_contact db contact_id = Some c ->
    exists c' db',
      update_contact_status contact_id status db = (Ok c', db')
      /\ Contact.status c' = status
      /\ Contact.id c' = Contact.id c
      /\ Contact.lead_id c' = Contact.lead_id c
      /\ Contact.source_id c' = Contact.source_id c
      /\ Contact.operator_id c' = Contact.operator_id c
      /\ Contact.created_at c' = Contact.created_at c
      /\ Contact.payload c' = Contact.payload c
      /\ get_contact db' contact_id = Some c'
      /\ (forall other,
             other <> contact_id ->
             get_contact db' other = get_contact db other)
      /\ List.length (contacts db') = List.length (contacts db)
      /\ (forall i row,
             nth_error (contacts db) i = Some row ->
             nth_error (contacts db') i
             = Some (if Contact.id row =? contact_id
                     then Contact.set_status row status else row))
      /\ operators db' = operators db
      /\ leads db' = leads db
      /\ sources db' = sources db
      /\ operator_source_weights db' = operator_source_weights db.
Proof.
  intros contact_id status db c H.
  destruct (find_some_id Contact.id _ _ _ H) as [_ Hid].
  eexists _, _. split; [apply update_contact_status_found; exact H|].
  simpl. repeat split.
  - rewrite get_contact_after_update, H. simpl.
    unfold restatus. rewrite Hid, Z.eqb_refl. reflexivity.
  - intros other Hne. rewrite get_contact_after_update.
    destruct (get_contact db other) as [c0|] eqn:E; [|reflexivity].
    destruct (find_some_id Contact.id _ _ _ E) as [_ Hid0]. simpl.
    unfold restatus. apply Z.eqb_neq in Hne. rewrite Hid0, Hne. reflexivity.
  - apply length_map.
  - intros i row Hrow. rewrite nth_error_map, Hrow. reflexivity.
Qed.

Lemma update_contact_status_overwrites_status_only_witness :
  exists c' db',
    update_contact_status 1 active closed_contact_db = (Ok c', db')
    /\ Contact.status c' = active
    /\ Contact.id c' = 1
    /\ Contact.lead_id c' = 1
    /\ Contact.source_id c' = 1
    /\ Contact.operator_id c' = Some 1
    /\ Contact.created_at c' = 0
    /\ Contact.payload c' = Some "first contact"
    /\ get_contact db' 1 = Some c'
    /\ (forall other, other <> 1 ->
                      get_contact db' other = get_contact closed_contact_db other)
    /\ List.length (contacts db') = List.length (contacts closed_contact_db)
    /\ (forall i row,
           nth_error (contacts closed_contact_db) i = Some row ->
           nth_error (contacts db') i
           = Some (if Contact.id row =? 1
                   then Contact.set_status row active else row))
    /\ operators db' = operators closed_contact_db
    /\ leads db' = leads closed_contact_db
    /\ sources db' = sources closed_contact_db
    /\ operator_source_weights db' = operator_source_weights closed_contact_db.
Proof.
  apply (update_contact_status_overwrites_status_only 1 active
           closed_contact_db
           (Contact.Build 1 1 1 (Some 1) closed 0 (Some "first contact"))).
  reflexivity.
Defined.

(** * Further properties of the service *)

(** ** Selection: which draws pick which candidate *)

Lemma candidates_of_positive db source_id :
  Forall (fun c => 0 < snd c) (candidates_of db source_id).
Proof.
  apply Forall_forall. intros [op w] Hin.
  apply candidates_of_eligible in Hin.
  destruct Hin as (row & _ & _ & _ & _ & _ & Hpos & _). exact Hpos.
Qed.

Lemma total_weight_nonneg candidates :
  Forall (fun c => 0 < snd c) candidates -> 0 <= total_weight candidates.
Proof.
  induction 1 as [|[op w] rest Hw _ IH]; simpl in *; lia.
Qed.

Lemma cumulative_bounds candidates :
  Forall (fun c => 0 < snd c) candidates ->
  forall i op w,
    nth_error candidates i = Some (op, w) ->
    w <= cumulative candidates i <= total_weight candidates.
Proof.
  induction 1 as [|[op0 w0] rest Hw0 Hrest IH]; intros i op w Hn.
  - destruct i; discriminate.
  - destruct i as [|i]; simpl in Hn, Hw0.
    + injection Hn as <- <-. rewrite cumulative_0. simpl.
      pose proof (total_weight_nonneg rest Hrest). lia.
    + rewrite cumulative_S. simpl. specialize (IH i op w Hn). lia.
Qed.

Lemma accumulate_interval candidates :
  Forall (fun c => 0 < snd c) candidates ->
  forall i op w upto r,
    nth_error candidates i = Some (op, w) ->
    (upto + inject_Z (cumulative candidates i - w) < r)%Q ->
    (r <= upto + inject_Z (cumulative candidates i))%Q ->
    accumulate candidates upto r = Some op.
Proof.
  induction 1 as [|[op0 w0] rest Hw0 Hrest IH]; intros i op w upto r Hn Hlo Hhi.
  - destruct i; discriminate.
  - destruct i as [|i]; simpl in Hn |- *.
    + injection Hn as <- <-. rewrite cumulative_0 in Hhi.
      apply Qle_bool_iff in Hhi. rewrite Hhi. reflexivity.
    + rewrite cumulative_S in Hlo, Hhi.
      pose proof (cumulative_bounds rest Hrest i op w Hn) as [Hge _].
      assert (HgeQ : (inject_Z w <= inject_Z (cumulative rest i))%Q)
        by (rewrite <- Zle_Qle; exact Hge).
      replace (w0 + cumulative rest i - w) with (w0 + (cumulative rest i - w))
        in Hlo by lia.
      rewrite !inject_Z_plus in Hlo, Hhi.
      unfold Z.sub in Hlo. rewrite inject_Z_plus, inject_Z_opp in Hlo.
      destruct (Qle_bool r (upto + inject_Z w0)) eqn:E.
      * apply Qle_bool_iff in E. lra.
      * apply (IH i op w); [exact Hn | |lra].
        unfold Z.sub. rewrite inject_Z_plus, inject_Z_opp. lra.
Qed.

(** X1: when the total weight of the candidate list is below [2 ^ 53], so
    that no partial sum is rounded, the candidate at position [i], of weight
    [w], is returned for every draw in the interval
    [(cumulative i - w, cumulative i]]; that interval has the positive length
    [w] and ends at or before the total weight. *)
Theorem choose_picks_candidate_on_its_interval :
  forall uniform db source_id i op w,
    let candidates := candidates_of db source_id in
    let r := uniform 0%Q (inject_Z (total_weight candidates)) in
    total_weight candidates < 2 ^ 53 ->
    nth_error candidates i = Some (op, w) ->
    (inject_Z (cumulative candidates i - w) < r)%Q ->
    (r <= inject_Z (cumulative candidates i))%Q ->
    choose_operator_for_source uniform source_id db = (Ok (Some op), db)
    /\ 0 < w
    /\ 0 <= cumulative candidates i - w
    /\ cumulative candidates i <= total_weight candidates.
Proof.
  intros uniform db sid i op w candidates r Hbound Hn Hlo Hhi.
  pose proof (candidates_of_positive db sid) as Hpos. fold candidates in Hpos.
  pose proof (cumulative_bounds candidates Hpos i op w Hn) as [Hge Hle].
  split; [|split; [|split; [lia | exact Hle]]].
  - rewrite choose_operator_for_source_exact by exact Hbound.
    fold candidates.
    erewrite weighted_choice_accumulate; [reflexivity|]. fold r.
    apply (accumulate_interval candidates Hpos i op w); [exact Hn | lra | lra].
  - apply nth_error_In in Hn.
    rewrite Forall_forall in Hpos. exact (Hpos _ Hn).
Qed.

Lemma choose_picks_candidate_on_its_interval_witness :
  choose_operator_for_source (fixed_draw (11 # 10)) 1 weights_db
  = (Ok (Some op2), weights_db)
  /\ 0 < 3
  /\ 0 <= cumulative (candidates_of weights_db 1) 1 - 3
  /\ cumulative (candidates_of weights_db 1) 1
     <= total_weight (candidates_of weights_db 1).
Proof.
  apply (choose_picks_candidate_on_its_interval (fixed_draw (11 # 10))
           weights_db 1 1%nat op2 3).
  - vm_compute. reflexivity.
  - reflexivity.
  - vm_compute. reflexivity.
  - vm_compute. discriminate.
Defined.

(** ** Status updates *)

Lemma find_id_none {A} (key : A -> Z) (l : list A) k :
  find (fun y => key y =? k) l = None <-> ~ In k (map key l).
Proof.
  induction l as [|x rest IH]; simpl; [tauto|].
  destruct (Z.eqb_spec (key x) k) as [Hk | Hk].
  - split; [discriminate | intros H; exfalso; apply H; left; exact Hk].
  - rewrite IH. tauto.
Qed.

Lemma find_id_some_iff {A} (key : A -> Z) (l : list A) k :
  (exists x, find (fun y => key y =? k) l = Some x) <-> In k (map key l).
Proof.
  destruct (find (fun y => key y =? k) l) as [x|] eqn:E.
  - split; [intros _ | eauto].
    destruct (find_some_id key _ _ _ E) as [Hin <-]. apply in_map. exact Hin.
  - apply find_id_none in E. split; [intros [x Hx]; discriminate | tauto].
Qed.



Lemma restatus_restatus contact_id s1 s2 c :
  restatus contact_id s2 (restatus contact_id s1 c) = restatus contact_id s2 c.
Proof.
  unfold restatus. destruct (Contact.id c =? contact_id) eqn:E.
  - simpl. rewrite E. reflexivity.
  - rewrite E. reflexivity.
Qed.

(** X3: the last status written wins: for a contact id in the table,
    updating to one status and then to another returns the same contact and
    leaves the same database as updating to the second status alone; so
    repeating an update changes nothing. *)
Theorem update_contact_status_last_write_wins :
  forall contact_id status1 status2 db c,
    get_contact db contact_id = Some c ->
    update_contact_status contact_id status2
      (snd (update_contact_status contact_id status1 db))
    = update_contact_status contact_id status2 db.
Proof.
  intros cid s1 s2 db c E.
  rewrite (update_contact_status_found cid s1 db c E). simpl.
  rewrite (update_contact_status_found cid s2 db c E).
  erewrite update_contact_status_found.
  2:{ rewrite get_contact_after_update, E. simpl. reflexivity. }
  destruct (find_some_id Contact.id _ _ _ E) as [_ Hid].
  unfold restatus at 1. rewrite Hid, Z.eqb_refl. f_equal.
  unfold with_contacts. simpl. f_equal.
  rewrite map_map. apply map_ext. intros x. apply restatus_restatus.
Qed.

Lemma update_contact_status_last_write_wins_witness :
  update_contact_status 1 closed
    (snd (update_contact_status 1 active closed_contact_db))
  = update_contact_status 1 closed closed_contact_db.
Proof.
  apply (update_contact_status_last_write_wins 1 active closed closed_contact_db
           (Contact.Build 1 1 1 (Some 1) closed 0 (Some "first contact"))).
  reflexivity.
Defined.

Lemma count_cons {A} (p : A -> bool) (x : A) (l : list A) :
  Z.of_nat (List.length (filter p (x :: l)))
  = Z.b2z (p x) + Z.of_nat (List.length (filter p l)).
Proof. simpl. destruct (p x); simpl List.length; simpl Z.b2z; lia. Qed.

Lemma map_restatus_absent contact_id status l :
  ~ In contact_id (map Contact.id l) ->
  map (restatus contact_id status) l = l.
Proof.
  induction l as [|x rest IH]; simpl; intros H; [reflexivity|].
  rewrite IH by tauto. unfold restatus.
  destruct (Z.eqb_spec (Contact.id x) contact_id); [tauto | reflexivity].
Qed.

Lemma count_after_restatus (p : Contact.t -> bool) contact_id status l c :
  NoDup (map Contact.id l) ->
  find (fun x => Contact.id x =? contact_id) l = Some c ->
  Z.of_nat (List.length (filter p (map (restatus contact_id status) l)))
  = Z.of_nat (List.length (filter p l))
    - Z.b2z (p c) + Z.b2z (p (Contact.set_status c status)).
Proof.
  induction l as [|x rest IH]; intros Hnd Hfind; [discriminate|].
  simpl map in *. inversion Hnd as [|? ? Hnotin Hnd']; subst.
  simpl in Hfind. rewrite !count_cons. unfold restatus at 1.
  destruct (Z.eqb_spec (Contact.id x) contact_id) as [Hid | Hid].
  - injection Hfind as <-. rewrite Hid in Hnotin.
    rewrite (map_restatus_absent _ _ _ Hnotin). lia.
  - rewrite (IH Hnd' Hfind). lia.
Qed.

(** X4: with distinct contact ids, a status update changes the active count
    of an operator by the updated contact alone: the count loses one when the
    contact counted for the operator before (it was active and assigned to
    that operator), and gains one when it counts after. *)
Theorem update_contact_status_active_count :
  forall contact_id status db c operator_id,
    NoDup (map Contact.id (contacts db)) ->
    get_contact db contact_id = Some c ->
    active_count (snd (update_contact_status contact_id status db)) operator_id
    = active_count db operator_id
      - Z.b2z (counts_for operator_id c)
      + Z.b2z (counts_for operator_id (Contact.set_status c status)).
Proof.
  intros cid st db c oid Hnd E.
  rewrite (update_contact_status_found cid st db c E). simpl.
  unfold active_count. simpl.
  exact (count_after_restatus (counts_for oid) cid st (contacts db) c Hnd E).
Qed.

Lemma update_contact_status_active_count_witness :
  active_count (snd (update_contact_status 1 closed load_limit_db)) 1
  = active_count load_limit_db 1
    - Z.b2z (counts_for 1
               (Contact.Build 1 1 1 (Some 1) active 0 (Some "first contact")))
    + Z.b2z (counts_for 1
               (Contact.set_status
                  (Contact.Build 1 1 1 (Some 1) active 0 (Some "first contact"))
                  closed)).
Proof.
  apply (update_contact_status_active_count 1 closed load_limit_db
           (Contact.Build 1 1 1 (Some 1) active 0 (Some "first contact")) 1).
  - simpl. constructor; [simpl; tauto | constructor].
  - reflexivity.
Defined.

(** ** Recording contacts *)

(** The contact row create_contact builds once lead and operator are known. *)
Lemma create_contact_ok_inv uniform utcnow new_id contact_in db c db' :
  create_contact uniform utcnow new_id contact_in db = (Ok c, db') ->
  exists source lead ls,
    get_source db (source_id contact_in) = Some source
    /\ get_or_create_lead new_id (lead_external_id contact_in)
         (lead_name contact_in) db = (Ok lead, with_leads db ls)
    /\ c = {| Contact.id := new_id (map Contact.id (contacts db));
              Contact.lead_id := Lead.id lead;
              Contact.source_id := Source.id source;
              Contact.operator_id :=
                option_map Operator.id
                  (weighted_choice_binary64 uniform
                     (candidates_of (with_leads db ls) (Source.id source)));
              Contact.status := active;
              Contact.created_at := utcnow;
              Contact.payload := payload contact_in |}
    /\ db' = with_contacts (with_leads db ls) (contacts db ++ [c]).
Proof.
  intros H.
  destruct (get_source db (source_id contact_in)) as [source|] eqn:Es.
  2:{ rewrite create_contact_missing in H by exact Es. discriminate. }
  destruct (get_or_create_lead_frame new_id (lead_external_id contact_in)
              (lead_name contact_in) db) as (lead & ls & Hl).
  rewrite (create_contact_found _ _ _ _ _ _ _ _ Es Hl) in H.
  unfold insert_contact in H. simpl in H. injection H as <- <-.
  exists source, lead, ls. repeat split. exact Hl.
Qed.

Lemma active_count_snoc db ls c operator_id :
  active_count (with_contacts (with_leads db ls) (contacts db ++ [c])) operator_id
  = active_count db operator_id + Z.b2z (counts_for operator_id c).
Proof.
  unfold active_count. simpl. rewrite filter_app, length_app. simpl.
  fold (counts_for operator_id c).
  destruct (counts_for operator_id c); simpl; lia.
Qed.

(** X5: a contact recorded by create_contact raises the active count of the
    operator it is assigned to by one and leaves every other count as it
    was; and with distinct operator ids, when every operator is within its
    load limit before the call, every operator is within its limit after
    it. *)
Theorem create_contact_keeps_within_limits :
  (forall uniform utcnow new_id contact_in db c db',
      create_contact uniform utcnow new_id contact_in db = (Ok c, db') ->
      forall operator_id,
        active_count db' operator_id
        = active_count db operator_id
          + Z.b2z (option_Z_eqb (Contact.operator_id c) operator_id))
  /\ (forall uniform utcnow new_id contact_in db,
         NoDup (map Operator.id (operators db)) ->
         within_limits db ->
         within_limits (snd (create_contact uniform utcnow new_id contact_in db))).
Proof.
  split.
  - intros uniform utcnow new_id contact_in db c db' H oid.
    destruct (create_contact_ok_inv _ _ _ _ _ _ _ H)
      as (source & lead & ls & _ & _ & Hc & ->).
    rewrite active_count_snoc. f_equal. f_equal. unfold counts_for.
    rewrite Hc. simpl. apply andb_true_r.
  - intros uniform utcnow new_id contact_in db Hnd Hlim.
    destruct (create_contact uniform utcnow new_id contact_in db)
      as [[c|e] db'] eqn:H.
    + destruct (create_contact_ok_inv _ _ _ _ _ _ _ H)
        as (source & lead & ls & _ & _ & Hc & ->).
      simpl. intros op Hop. simpl in Hop. rewrite active_count_snoc.
      specialize (Hlim op Hop).
      destruct (counts_for (Operator.id op) c) eqn:Ecount;
        [|simpl; lia].
      unfold counts_for in Ecount. rewrite Hc in Ecount. simpl in Ecount.
      destruct (weighted_choice_binary64 uniform _) as [chosen|] eqn:Ech;
        [|discriminate].
      simpl in Ecount. rewrite andb_true_r in Ecount.
      apply Z.eqb_eq in Ecount.
      destruct (weighted_choice_binary64_In _ _ _ Ech) as [w Hin].
      apply candidates_of_eligible, eligible_facts in Hin.
      destruct Hin as (Hin & _ & _ & _ & Hload). simpl in Hin.
      assert (chosen = op) by (eapply NoDup_map_eq; eassumption).
      subst chosen. change (active_count (with_leads db ls) (Operator.id op))
        with (active_count db (Operator.id op)) in Hload.
      simpl. lia.
    + destruct (get_source db (source_id contact_in)) as [source|] eqn:Es.
      * destruct (get_or_create_lead_frame new_id (lead_external_id contact_in)
                    (lead_name contact_in) db) as (lead & ls & Hl).
        rewrite (create_contact_found _ _ _ _ _ _ _ _ Es Hl) in H.
        discriminate.
      * rewrite create_contact_missing in H by exact Es.
        injection H as _ <-. exact Hlim.
Qed.

Lemma create_contact_keeps_within_limits_witness :
  within_limits
    (snd (create_contact (fixed_draw (5 # 2)) 0 autoincrement
            (Build_ContactCreate "user_2" None 1 None) load_limit_db)).
Proof.
  apply (proj2 create_contact_keeps_within_limits (fixed_draw (5 # 2)) 0
               autoincrement (Build_ContactCreate "user_2" None 1 None)
               load_limit_db).
  - simpl. constructor; [simpl; tauto | constructor].
  - intros op [<- | []]. vm_compute. discriminate.
Defined.

(** X6: the contact create_contact returns is in the contacts table, and its
    references resolve in the database the call leaves: its lead id is the
    id of a stored lead, its source id the id of a stored source, and its
    operator id, when present, the id of a stored operator. *)
Theorem create_contact_references_resolve :
  forall uniform utcnow new_id contact_in db c db',
    create_contact uniform utcnow new_id contact_in db = (Ok c, db') ->
    In c (contacts db')
    /\ In (Contact.lead_id c) (map Lead.id (leads db'))
    /\ In (Contact.source_id c) (map Source.id (sources db'))
    /\ (forall operator_id,
           Contact.operator_id c = Some operator_id ->
           In operator_id (map Operator.id (operators db'))).
Proof.
  intros uniform utcnow new_id contact_in db c db' H.
  destruct (create_contact_ok_inv _ _ _ _ _ _ _ H)
    as (source & lead & ls & Hs & Hl & Hc & ->).
  simpl. split; [apply in_or_app; right; left; reflexivity|].
  split; [|split].
  - pose proof (get_or_create_lead_found_after _ _ _ _ _ _ Hl) as Hfound.
    apply find_some in Hfound. destruct Hfound as [Hin _]. simpl in Hin.
    rewrite Hc. simpl. apply in_map. exact Hin.
  - destruct (find_some_id Source.id _ _ _ Hs) as [Hin _].
    rewrite Hc. simpl. apply in_map. exact Hin.
  - intros oid Hoid. rewrite Hc in Hoid. simpl in Hoid.
    destruct (weighted_choice_binary64 uniform _) as [chosen|] eqn:Ech; [|discriminate].
    simpl in Hoid. injection Hoid as <-.
    destruct (weighted_choice_binary64_In _ _ _ Ech) as [w Hin].
    apply candidates_of_eligible, eligible_facts in Hin.
    destruct Hin as (Hin & _). apply in_map. exact Hin.
Qed.

Lemma create_contact_references_resolve_witness :
  let c := Contact.Build 1 1 1 (Some 2) active 0 None in
  let db' :=
    snd (create_contact (fixed_draw (5 # 2)) 0 autoincrement
           (Build_ContactCreate "u1" None 1 None) weights_db) in
  In c (contacts db')
  /\ In (Contact.lead_id c) (map Lead.id (leads db'))
  /\ In (Contact.source_id c) (map Source.id (sources db'))
  /\ (forall operator_id,
         Contact.operator_id c = Some operator_id ->
         In operator_id (map Operator.id (operators db'))).
Proof.
  intros c db'.
  apply (create_contact_references_resolve (fixed_draw (5 # 2)) 0 autoincrement
           (Build_ContactCreate "u1" None 1 None) weights_db c db').
  reflexivity.
Defined.

Lemma lookup_none_not_in db external_id :
  get_lead_by_external_id db external_id = None ->
  ~ In external_id (map Lead.external_id (leads db)).
Proof.
  unfold get_lead_by_external_id.
  induction (leads db) as [|l rest IH]; simpl; [tauto|].
  destruct (String.eqb_spec (Lead.external_id l) external_id) as [He | He].
  - discriminate.
  - intros Hnone [Hhead | Htail]; [contradiction | exact (IH Hnone Htail)].
Qed.

Lemma get_or_create_lead_keeps_unique new_id external_id name db :
  (forall ids, ~ In (new_id ids) ids) ->
  NoDup (map Lead.id (leads db)) ->
  NoDup (map Lead.external_id (leads db)) ->
  NoDup (map Lead.id (leads (snd (get_or_create_lead new_id external_id name db))))
  /\ NoDup (map Lead.external_id
              (leads (snd (get_or_create_lead new_id external_id name db)))).
Proof.
  intros Hfresh Hids Heids. rewrite get_or_create_lead_cases.
  destruct (get_lead_by_external_id db external_id) as [l0|] eqn:E.
  - destruct (truthy name && negb (truthy (Lead.name l0))); simpl.
    + rewrite map_rename_ids, map_rename_external_ids. tauto.
    + tauto.
  - simpl. rewrite !map_app. simpl. split.
    + apply NoDup_snoc; [exact Hids | apply Hfresh].
    + apply NoDup_snoc; [exact Heids | apply lookup_none_not_in; exact E].
Qed.

(** X7: when the storage hands out unused keys, create_contact keeps the
    keys and the unique column of the tables it writes distinct: lead ids,
    lead external ids and contact ids that are pairwise distinct before the
    call are pairwise distinct after it, whether it returns or raises. *)
Theorem create_contact_keeps_keys_distinct :
  forall uniform utcnow new_id contact_in db,
    (forall ids, ~ In (new_id ids) ids) ->
    NoDup (map Lead.id (leads db)) ->
    NoDup (map Lead.external_id (leads db)) ->
    NoDup (map Contact.id (contacts db)) ->
    let db' := snd (create_contact uniform utcnow new_id contact_in db) in
    NoDup (map Lead.id (leads db'))
    /\ NoDup (map Lead.external_id (leads db'))
    /\ NoDup (map Contact.id (contacts db')).
Proof.
  intros uniform utcnow new_id contact_in db Hfresh Hids Heids Hcids db'.
  subst db'.
  destruct (get_source db (source_id contact_in)) as [source|] eqn:Es.
  - destruct (get_or_create_lead_frame new_id (lead_external_id contact_in)
                (lead_name contact_in) db) as (lead & ls & Hl).
    rewrite (create_contact_found _ _ _ _ _ _ _ _ Es Hl).
    pose proof (get_or_create_lead_keeps_unique new_id
                  (lead_external_id contact_in) (lead_name contact_in) db
                  Hfresh Hids Heids) as Hu.
    rewrite Hl in Hu. simpl in Hu. unfold insert_contact. simpl.
    split; [tauto|]. split; [tauto|].
    rewrite map_app. simpl. apply NoDup_snoc; [exact Hcids | apply Hfresh].
  - rewrite create_contact_missing by exact Es. simpl. tauto.
Qed.

Lemma create_contact_keeps_keys_distinct_witness :
  let db' :=
    snd (create_contact (fixed_draw (5 # 2)) 0 autoincrement
           (Build_ContactCreate "user_2" None 1 None) load_limit_db) in
  NoDup (map Lead.id (leads db'))
  /\ NoDup (map Lead.external_id (leads db'))
  /\ NoDup (map Contact.id (contacts db')).
Proof.
  apply (create_contact_keeps_keys_distinct (fixed_draw (5 # 2)) 0
           autoincrement (Build_ContactCreate "user_2" None 1 None)
           load_limit_db).
  - apply autoincrement_fresh.
  - simpl. constructor; [simpl; tauto | constructor].
  - simpl. constructor; [simpl; tauto | constructor].
  - simpl. constructor; [simpl; tauto | constructor].
Defined.

(** X8: two contact events for one lead share the lead: when create_contact
    succeeds twice in a row with the same [lead_external_id], whatever the
    sources, names and draws, the second contact carries the lead id of the
    first, gets its own row after the first, and the second call adds no
    lead. *)
Theorem create_contact_twice_shares_lead :
  forall uniform1 uniform2 utcnow1 utcnow2 new_id in1 in2 db c1 db1 c2 db2,
    lead_external_id in2 = lead_external_id in1 ->
    create_contact uniform1 utcnow1 new_id in1 db = (Ok c1, db1) ->
    create_contact uniform2 utcnow2 new_id in2 db1 = (Ok c2, db2) ->
    Contact.lead_id c2 = Contact.lead_id c1
    /\ map Lead.id (leads db2) = map Lead.id (leads db1)
    /\ contacts db2 = (contacts db ++ [c1; c2])%list.
Proof.
  intros u1 u2 t1 t2 new_id in1 in2 db c1 db1 c2 db2 Heid H1 H2.
  destruct (create_contact_ok_inv _ _ _ _ _ _ _ H1)
    as (s1 & l1 & ls1 & _ & Hl1 & Hc1 & ->).
  destruct (create_contact_ok_inv _ _ _ _ _ _ _ H2)
    as (s2 & l2 & ls2 & _ & Hl2 & Hc2 & ->).
  pose proof (get_or_create_lead_found_after _ _ _ _ _ _ Hl1) as Hfound.
  rewrite Heid in Hl2.
  destruct (get_or_create_lead_existing new_id (lead_external_id in1)
              (lead_name in2)
              (with_contacts (with_leads db ls1) (contacts db ++ [c1])) l1 Hfound)
    as (l2' & db2' & Hcall & Hid & _ & _ & Hids & _).
  rewrite Hcall in Hl2. injection Hl2 as -> ->.
  split; [rewrite Hc1, Hc2; simpl; exact Hid|].
  split; [simpl in *; exact Hids|].
  simpl. rewrite <- app_assoc. reflexivity.
Qed.

Lemma create_contact_twice_shares_lead_witness :
  let in1 := Build_ContactCreate "u1" (Some "Alice") 1 None in
  let in2 := Build_ContactCreate "u1" (Some "Bob") 1 (Some "again") in
  let c1 := Contact.Build 1 1 1 (Some 2) active 0 None in
  let c2 := Contact.Build 2 1 1 (Some 1) active 5 (Some "again") in
  Contact.lead_id c2 = Contact.lead_id c1
  /\ map Lead.id
       (leads (snd (create_contact (fixed_draw (1 # 2)) 5 autoincrement in2
                      (snd (create_contact (fixed_draw (5 # 2)) 0 autoincrement
                              in1 weights_db)))))
     = map Lead.id
         (leads (snd (create_contact (fixed_draw (5 # 2)) 0 autoincrement
                        in1 weights_db)))
  /\ contacts
       (snd (create_contact (fixed_draw (1 # 2)) 5 autoincrement in2
               (snd (create_contact (fixed_draw (5 # 2)) 0 autoincrement
                       in1 weights_db))))
     = (contacts weights_db ++ [c1; c2])%list.
Proof.
  intros in1 in2 c1 c2.
  apply (create_contact_twice_shares_lead (fixed_draw (5 # 2))
           (fixed_draw (1 # 2)) 0 5 autoincrement in1 in2 weights_db c1
           (snd (create_contact (fixed_draw (5 # 2)) 0 autoincrement in1
                   weights_db))
           c2
           (snd (create_contact (fixed_draw (1 # 2)) 5 autoincrement in2
                   (snd (create_contact (fixed_draw (5 # 2)) 0 autoincrement
                           in1 weights_db)))));
    reflexivity.
Defined.

(** ** Operators *)

Lemma sqlite_integer_iff n :
  sqlite_integer n = true <-> - 2 ^ 63 <= n < 2 ^ 63.
Proof.
  unfold sqlite_integer. rewrite andb_true_iff, Z.leb_le, Z.ltb_lt. tauto.
Qed.


Lemma revise_operator_id operator_id update o :
  Operator.id (revise_operator operator_id update o) = Operator.id o.
Proof.
  unfold revise_operator. destruct (Operator.id o =? operator_id); reflexivity.
Qed.


Lemma get_operator_after_update db operator_id update operator_id' :
  get_operator
    (with_operators db (map (revise_operator operator_id update) (operators db)))
    operator_id'
  = option_map (revise_operator operator_id update)
      (get_operator db operator_id').
Proof.
  unfold get_operator. simpl. apply find_map_stable.
  intros o. rewrite revise_operator_id. reflexivity.
Qed.

(** The three ways update_operator ends: no operator of that id; a value
    that cannot be bound, and nothing written; the row revised. *)
Lemma update_operator_cases operator_id update db :
  update_operator operator_id update db =
  match get_operator db operator_id with
  | None => (Raise OperatorNotFound, db)
  | Some op =>
      if update_fits update
      then (Ok (apply_update update op),
            with_operators db
              (map (revise_operator operator_id update) (operators db)))
      else (Raise OverflowError, db)
  end.
Proof.
  unfold update_operator, bind, query.
  destruct (get_operator db operator_id) as [op|] eqn:E; [|reflexivity].
  destruct (find_some_id Operator.id _ _ _ E) as [_ Hid].
  unfold commit_operator, ret. rewrite Hid.
  destruct (update_fits update); reflexivity.
Qed.



(** X10: after update_operator has switched an operator off
    ([is_active = False]), or has set its load limit to a value that its
    active count already reaches, choose_operator_for_source returns that
    operator for no source and no draw; the contacts it holds stay as they
    are. *)
Theorem updated_operator_is_not_selected :
  forall operator_id update db op op' db',
    get_operator db operator_id = Some op ->
    update_operator operator_id update db = (Ok op', db') ->
    OperatorUpdate.is_active update = Some false
    \/ (exists n,
           OperatorUpdate.load_limit update = Some n
           /\ n <= active_count db operator_id) ->
    contacts db' = contacts db
    /\ forall uniform source_id chosen,
         fst (choose_operator_for_source uniform source_id db')
         = Ok (Some chosen) ->
         Operator.id chosen <> operator_id.
Proof.
  intros oid update db op op' db' E H Hoff.
  rewrite update_operator_cases, E in H.
  destruct (update_fits update); [|discriminate].
  injection H as <- <-. split; [reflexivity|].
  intros uniform sid chosen Hch Hid.
  rewrite choose_operator_for_source_eq in Hch. simpl in Hch.
  injection Hch as Hch.
  destruct (weighted_choice_binary64_In _ _ _ Hch) as [w Hin].
  apply candidates_of_eligible, eligible_facts in Hin.
  destruct Hin as (_ & Hget & Hact & _ & Hload).
  rewrite Hid, get_operator_after_update, E in Hget. simpl in Hget.
  destruct (find_some_id Operator.id _ _ _ E) as [_ Hop].
  unfold revise_operator in Hget. rewrite Hop, Z.eqb_refl in Hget.
  injection Hget as <-.
  destruct Hoff as [Hoff | (n & Hn & Hfull)].
  - simpl in Hact. rewrite Hoff in Hact. discriminate.
  - simpl in Hload. rewrite Hn, Hop in Hload.
    change (active_count (with_operators db _) oid)
      with (active_count db oid) in Hload.
    lia.
Qed.

Lemma updated_operator_is_not_selected_witness :
  contacts (snd (update_operator 2 (OperatorUpdate.Build None (Some false))
                   weights_db))
  = contacts weights_db
  /\ forall uniform source_id chosen,
       fst (choose_operator_for_source uniform source_id
              (snd (update_operator 2 (OperatorUpdate.Build None (Some false))
                      weights_db)))
       = Ok (Some chosen) ->
       Operator.id chosen <> 2.
Proof.
  apply (updated_operator_is_not_selected 2
           (OperatorUpdate.Build None (Some false)) weights_db op2
           (apply_update (OperatorUpdate.Build None (Some false)) op2)).
  - reflexivity.
  - reflexivity.
  - left. reflexivity.
Defined.

Lemma join_operator_new_operator db new_op source_id ws :
  (forall row, In row ws ->
               OperatorSourceWeight.operator_id row <> Operator.id new_op) ->
  join_operator (with_operators db (operators db ++ [new_op])) source_id ws
  = join_operator db source_id ws.
Proof.
  induction ws as [|w rest IH]; intros H; simpl; [reflexivity|].
  rewrite IH by (intros row Hin; apply H; right; exact Hin).
  assert (Hw : OperatorSourceWeight.operator_id w <> Operator.id new_op)
    by (apply H; left; reflexivity).
  unfold get_operator at 1. simpl.
  destruct (get_operator db (OperatorSourceWeight.operator_id w))
    as [op|] eqn:E; unfold get_operator in E.
  - rewrite (find_app_some _ _ _ _ E). reflexivity.
  - rewrite (find_app_none _ _ _ E). simpl.
    destruct (Z.eqb_spec (Operator.id new_op)
                (OperatorSourceWeight.operator_id w)) as [Heq|]; [|reflexivity].
    congruence.
Qed.

Lemma collect_candidates_same_contacts db db' weights :
  contacts db' = contacts db ->
  collect_candidates db' weights = collect_candidates db weights.
Proof.
  intros Hc. induction weights as [|[w op] rest IH]; simpl; [reflexivity|].
  unfold active_count. rewrite Hc, IH. reflexivity.
Qed.

(** X11: create_operator with a load limit inside the 64-bit range of the
    column appends one active operator with the given name and load limit
    and touches no other row.  When the key it received is unused, a lookup
    by that key finds it; and as long as no weight row names that key,
    selection for every source returns what it returned before.  A load
    limit outside that range raises OverflowError and nothing is written. *)
Theorem create_operator_adds_unweighted_operator :
  forall new_id operator db,
    (- 2 ^ 63 <= OperatorCreate.load_limit operator < 2 ^ 63 ->
     exists op db',
       create_operator new_id operator db = (Ok op, db')
       /\ operators db' = (operators db ++ [op])%list
       /\ leads db' = leads db
       /\ sources db' = sources db
       /\ operator_source_weights db' = operator_source_weights db
       /\ contacts db' = contacts db
       /\ Operator.is_active op = true
       /\ Operator.name op = OperatorCreate.name operator
       /\ Operator.load_limit op = OperatorCreate.load_limit operator
       /\ (~ In (Operator.id op) (map Operator.id (operators db)) ->
           get_operator db' (Operator.id op) = Some op)
       /\ ((forall row,
               In row (operator_source_weights db) ->
               OperatorSourceWeight.operator_id row <> Operator.id op) ->
           forall uniform source_id,
             fst (choose_operator_for_source uniform source_id db')
             = fst (choose_operator_for_source uniform source_id db)))
    /\ (~ (- 2 ^ 63 <= OperatorCreate.load_limit operator < 2 ^ 63) ->
        create_operator new_id operator db = (Raise OverflowError, db)).
Proof.
  intros new_id operator db. unfold create_operator.
  destruct (sqlite_integer (OperatorCreate.load_limit operator)) eqn:Efits.
  - split; [|intros Hout; apply sqlite_integer_iff in Efits; contradiction].
    intros _. eexists _, _. split; [reflexivity|].
    do 8 (split; [reflexivity|]). split.
    + intros Hfresh. unfold get_operator. simpl.
      apply find_id_none in Hfresh. simpl in Hfresh.
      rewrite (find_app_none _ _ _ Hfresh).
      simpl. rewrite Z.eqb_refl. reflexivity.
    + intros Hrows uniform sid. rewrite !choose_operator_for_source_eq.
      unfold fst, candidates_of, weights_of_source.
      change (operator_source_weights (with_operators db _))
        with (operator_source_weights db).
      rewrite join_operator_new_operator by exact Hrows.
      rewrite (collect_candidates_same_contacts db) by reflexivity.
      reflexivity.
  - split; [|reflexivity].
    intros Hin. apply sqlite_integer_iff in Hin. congruence.
Qed.

Lemma create_operator_adds_unweighted_operator_witness :
  get_operator
    (snd (create_operator autoincrement (OperatorCreate.Build "Op3" 5)
            weights_db)) 3
  = Some (Operator.Build 3 "Op3" true 5).
Proof.
  destruct (proj1 (create_operator_adds_unweighted_operator autoincrement
                     (OperatorCreate.Build "Op3" 5) weights_db))
    as (op & db' & Hcreate & _ & _ & _ & _ & _ & _ & _ & _ & Hget & _).
  - split; [vm_compute; discriminate | vm_compute; reflexivity].
  - injection Hcreate as Hop Hdb. subst op db'.
    apply Hget. vm_compute. intros [H | [H | []]]; discriminate H.
Defined.

(** ** Sources *)

(** X12: create_source raises IntegrityError, with the database unchanged,
    exactly when a stored source has the same name, or the same code when a
    code is given; otherwise it appends the source.  Source names that are
    pairwise distinct before the call are pairwise distinct after it. *)
Theorem create_source_rejects_taken_name_or_code :
  forall new_id source db,
    (create_source new_id source db = (Raise IntegrityError, db)
     <-> exists s,
           In s (sources db)
           /\ (Source.name s = SourceCreate.name source
               \/ exists c,
                    SourceCreate.code source = Some c
                    /\ Source.code s = Some c))
    /\ ((forall s,
            In s (sources db) ->
            Source.name s <> SourceCreate.name source
            /\ forall c, SourceCreate.code source = Some c ->
                         Source.code s <> Some c) ->
        exists s,
          create_source new_id source db
          = (Ok s, with_sources db (sources db ++ [s]))
          /\ Source.name s = SourceCreate.name source
          /\ Source.code s = SourceCreate.code source)
    /\ (NoDup (map Source.name (sources db)) ->
        NoDup (map Source.name (sources (snd (create_source new_id source db))))).
Proof.
  intros new_id source db.
  assert (Hclash :
            existsb (source_clash (SourceCreate.name source)
                       (SourceCreate.code source)) (sources db) = true
            <-> exists s,
                  In s (sources db)
                  /\ (Source.name s = SourceCreate.name source
                      \/ exists c,
                           SourceCreate.code source = Some c
                           /\ Source.code s = Some c)).
  { rewrite existsb_exists. split; intros (s & Hin & H); exists s;
      (split; [exact Hin|]); unfold source_clash in *.
    - apply orb_true_iff in H. destruct H as [H | H].
      + left. apply String.eqb_eq. exact H.
      + right. destruct (SourceCreate.code source) as [c|]; [|discriminate].
        destruct (Source.code s) as [c'|]; [|discriminate].
        apply String.eqb_eq in H. subst c'. eauto.
    - apply orb_true_iff. destruct H as [H | (c & Hc & Hs)].
      + left. apply String.eqb_eq. exact H.
      + right. rewrite Hc, Hs. apply String.eqb_refl. }
  unfold create_source.
  destruct (existsb _ (sources db)) eqn:E.
  - split; [|split].
    + split; [intros _; apply Hclash; reflexivity | reflexivity].
    + intros Hfree. exfalso.
      destruct (proj1 Hclash eq_refl) as (s & Hin & [Hn | (c & Hc & Hs)]).
      * exact (proj1 (Hfree s Hin) Hn).
      * exact (proj2 (Hfree s Hin) c Hc Hs).
    + simpl. tauto.
  - split; [|split].
    + split; [discriminate|]. intros H. apply Hclash in H. discriminate.
    + intros _. eexists. split; [reflexivity|]. split; reflexivity.
    + intros Hnd. simpl. rewrite map_app. simpl. apply NoDup_snoc; [exact Hnd|].
      intros Hin. apply in_map_iff in Hin. destruct Hin as (s & Hname & Hin).
      assert (Hex : exists s,
                 In s (sources db)
                 /\ (Source.name s = SourceCreate.name source
                     \/ exists c,
                          SourceCreate.code source = Some c
                          /\ Source.code s = Some c)) by eauto.
      apply Hclash in Hex. discriminate.
Qed.

Lemma create_source_rejects_taken_name_or_code_witness :
  NoDup
    (map Source.name
       (sources (snd (create_source autoincrement
                        (SourceCreate.Build "Bot C" (Some "bot_a"))
                        weights_db)))).
Proof.
  apply (proj2 (proj2 (create_source_rejects_taken_name_or_code autoincrement
                         (SourceCreate.Build "Bot C" (Some "bot_a"))
                         weights_db))).
  simpl. constructor; [simpl; tauto | constructor].
Defined.

(** X13: a source that create_source has just stored under an unused key
    accepts contacts: create_contact for that key returns a contact of that
    source, and while no weight row names the source the contact has no
    operator. *)
Theorem created_source_accepts_unassigned_contacts :
  forall new_id source db s db1,
    create_source new_id source db = (Ok s, db1) ->
    ~ In (Source.id s) (map Source.id (sources db)) ->
    (forall row,
        In row (operator_source_weights db) ->
        OperatorSourceWeight.source_id row <> Source.id s) ->
    forall uniform utcnow new_id' contact_in,
      source_id contact_in = Source.id s ->
      exists c db2,
        create_contact uniform utcnow new_id' contact_in db1 = (Ok c, db2)
        /\ Contact.source_id c = Source.id s
        /\ Contact.operator_id c = None
        /\ Contact.status c = active.
Proof.
  intros new_id source db s db1 Hcreate Hfresh Hrows
         uniform utcnow new_id' contact_in Hsid.
  unfold create_source in Hcreate.
  destruct (existsb _ (sources db)); [discriminate|].
  injection Hcreate as Hs Hdb. rewrite Hs in Hdb. subst db1.
  assert (Hget : get_source (with_sources db (sources db ++ [s]))
                   (source_id contact_in) = Some s).
  { unfold get_source. simpl. rewrite Hsid.
    apply find_id_none in Hfresh. rewrite (find_app_none _ _ _ Hfresh).
    simpl. rewrite Z.eqb_refl. reflexivity. }
  destruct (get_or_create_lead_frame new_id' (lead_external_id contact_in)
              (lead_name contact_in) (with_sources db (sources db ++ [s])))
    as (lead & ls & Hl).
  rewrite (create_contact_found _ _ _ _ _ _ _ _ Hget Hl).
  unfold insert_contact. eexists _, _. split; [reflexivity|]. simpl.
  split; [reflexivity|]. split; [|reflexivity].
  unfold candidates_of, weights_of_source. simpl.
  rewrite join_operator_no_row by exact Hrows. reflexivity.
Qed.

Lemma created_source_accepts_unassigned_contacts_witness :
  exists c db2,
    create_contact (fixed_draw (5 # 2)) 0 autoincrement
      (Build_ContactCreate "u1" None 2 None)
      (snd (create_source autoincrement (SourceCreate.Build "Bot C" None)
              weights_db))
    = (Ok c, db2)
    /\ Contact.source_id c = 2
    /\ Contact.operator_id c = None
    /\ Contact.status c = active.
Proof.
  apply (created_source_accepts_unassigned_contacts autoincrement
           (SourceCreate.Build "Bot C" None) weights_db
           (Source.Build 2 "Bot C" None)
           (snd (create_source autoincrement (SourceCreate.Build "Bot C" None)
                   weights_db))).
  - reflexivity.
  - vm_compute. intros [H | []]. discriminate H.
  - intros row [<- | [<- | []]]; vm_compute; discriminate.
  - reflexivity.
Defined.

(** ** Weights *)

Lemma same_pair_iff operator_id source_id w :
  same_pair operator_id source_id w = true
  <-> OperatorSourceWeight.operator_id w = operator_id
      /\ OperatorSourceWeight.source_id w = source_id.
Proof.
  unfold same_pair. rewrite andb_true_iff, !Z.eqb_eq. tauto.
Qed.

Lemma reweigh_pair weight_id weight operator_id source_id w :
  same_pair operator_id source_id (reweigh weight_id weight w)
  = same_pair operator_id source_id w.
Proof.
  unfold reweigh. destruct (OperatorSourceWeight.id w =? weight_id); reflexivity.
Qed.

(** The ways set_weight ends.  The pair has a row: its weight is
    overwritten, unless the new weight cannot be bound.  The pair has none:
    the insert binds its three integers, is rejected for a dangling reference
    when foreign keys are enforced, and otherwise appends the row. *)
Lemma set_weight_cases foreign_keys new_id weight_in db :
  set_weight foreign_keys new_id weight_in db =
  match get_weight db (WeightCreate.operator_id weight_in)
          (WeightCreate.source_id weight_in) with
  | Some r =>
      if sqlite_integer (WeightCreate.weight weight_in)
      then (Ok (put_weight r (WeightCreate.weight weight_in)),
            with_weights db
              (map (reweigh (OperatorSourceWeight.id r)
                      (WeightCreate.weight weight_in))
                   (operator_source_weights db)))
      else (Raise OverflowError, db)
  | None =>
      if negb (sqlite_integer (WeightCreate.operator_id weight_in)
               && sqlite_integer (WeightCreate.source_id weight_in)
               && sqlite_integer (WeightCreate.weight weight_in))
      then (Raise OverflowError, db)
      else if foreign_keys
              && negb (references_exist db (WeightCreate.operator_id weight_in)
                         (WeightCreate.source_id weight_in))
      then (Raise IntegrityError, db)
      else (Ok (new_weight new_id db weight_in),
            with_weights db
              (operator_source_weights db ++ [new_weight new_id db weight_in]))
  end.
Proof.
  unfold set_weight, bind, query.
  destruct (get_weight db _ _) as [r|] eqn:E.
  - unfold update_weight, ret.
    destruct (sqlite_integer (WeightCreate.weight weight_in)); reflexivity.
  - unfold insert_weight.
    destruct (negb _); [reflexivity|].
    destruct (foreign_keys && negb _); [reflexivity|].
    unfold get_weight in E. rewrite (find_none_existsb _ _ E). reflexivity.
Qed.

Lemma get_weight_after_reweigh db weight_id weight operator_id source_id :
  get_weight
    (with_weights db (map (reweigh weight_id weight) (operator_source_weights db)))
    operator_id source_id
  = option_map (reweigh weight_id weight) (get_weight db operator_id source_id).
Proof.
  unfold get_weight. simpl. apply find_map_stable.
  intros w. apply reweigh_pair.
Qed.

Lemma set_weight_get foreign_keys new_id weight_in db row db' :
  set_weight foreign_keys new_id weight_in db = (Ok row, db') ->
  get_weight db' (WeightCreate.operator_id weight_in)
    (WeightCreate.source_id weight_in) = Some row
  /\ OperatorSourceWeight.operator_id row = WeightCreate.operator_id weight_in
  /\ OperatorSourceWeight.source_id row = WeightCreate.source_id weight_in
  /\ OperatorSourceWeight.weight row = WeightCreate.weight weight_in.
Proof.
  rewrite set_weight_cases.
  destruct (get_weight db _ _) as [r|] eqn:E.
  - destruct (sqlite_integer (WeightCreate.weight weight_in)); [|discriminate].
    intros H. injection H as <- <-.
    rewrite get_weight_after_reweigh, E. simpl.
    unfold reweigh. rewrite Z.eqb_refl.
    apply find_some in E. destruct E as [_ E]. apply same_pair_iff in E.
    simpl. tauto.
  - destruct (negb _); [discriminate|].
    destruct (foreign_keys && negb _); [discriminate|].
    intros H. injection H as <- <-. unfold get_weight in *. simpl.
    rewrite (find_app_none _ _ _ E). simpl.
    unfold same_pair. simpl. rewrite !Z.eqb_refl. simpl. tauto.
Qed.

Lemma set_weight_ok_frame foreign_keys new_id weight_in db row db' :
  set_weight foreign_keys new_id weight_in db = (Ok row, db') ->
  operators db' = operators db
  /\ leads db' = leads db
  /\ sources db' = sources db
  /\ contacts db' = contacts db.
Proof.
  rewrite set_weight_cases.
  destruct (get_weight db _ _).
  - destruct (sqlite_integer _); [|discriminate].
    intros H. injection H as _ <-. simpl. tauto.
  - destruct (negb _); [discriminate|].
    destruct (foreign_keys && negb _); [discriminate|].
    intros H. injection H as _ <-. simpl. tauto.
Qed.

(** X14: set_weight is an upsert.  When it returns, the row it returns is
    the one stored for the pair, with the weight given, and it is among the
    rows listed for the source; no other table is touched.  With the three
    integers inside the 64-bit range of their columns, it raises only when
    the pair has no row and the storage enforces foreign keys that the new
    row would leave dangling; a weight outside the range raises
    OverflowError.  Whenever it raises, the exception is one of these two
    and the database is unchanged. *)
Theorem set_weight_stores_weight_for_pair :
  forall foreign_keys new_id weight_in db,
    (forall row db',
        set_weight foreign_keys new_id weight_in db = (Ok row, db') ->
        get_weight db' (WeightCreate.operator_id weight_in)
          (WeightCreate.source_id weight_in) = Some row
        /\ OperatorSourceWeight.weight row = WeightCreate.weight weight_in
        /\ In row (match list_weights_for_source
                           (WeightCreate.source_id weight_in) db' with
                   | (Ok rows, _) => rows
                   | (Raise _, _) => []
                   end)
        /\ operators db' = operators db
        /\ leads db' = leads db
        /\ sources db' = sources db
        /\ contacts db' = contacts db)
    /\ (- 2 ^ 63 <= WeightCreate.operator_id weight_in < 2 ^ 63 ->
        - 2 ^ 63 <= WeightCreate.source_id weight_in < 2 ^ 63 ->
        - 2 ^ 63 <= WeightCreate.weight weight_in < 2 ^ 63 ->
        ((exists e db',
             set_weight foreign_keys new_id weight_in db = (Raise e, db'))
         <-> foreign_keys = true
             /\ get_weight db (WeightCreate.operator_id weight_in)
                  (WeightCreate.source_id weight_in) = None
             /\ references_exist db (WeightCreate.operator_id weight_in)
                  (WeightCreate.source_id weight_in) = false)
        /\ (forall e db',
               set_weight foreign_keys new_id weight_in db = (Raise e, db') ->
               e = IntegrityError))
    /\ (~ (- 2 ^ 63 <= WeightCreate.weight weight_in < 2 ^ 63) ->
        set_weight foreign_keys new_id weight_in db = (Raise OverflowError, db))
    /\ (forall e db',
           set_weight foreign_keys new_id weight_in db = (Raise e, db') ->
           (e = IntegrityError \/ e = OverflowError) /\ db' = db).
Proof.
  intros fk new_id weight_in db. split; [|split; [|split]].
  - intros row db' H.
    destruct (set_weight_get _ _ _ _ _ _ H) as (Hget & Hop & Hsrc & Hw).
    split; [exact Hget|]. split; [exact Hw|]. split.
    + unfold list_weights_for_source, query. apply filter_In.
      apply find_some in Hget. split; [tauto|]. apply Z.eqb_eq. exact Hsrc.
    + exact (set_weight_ok_frame _ _ _ _ _ _ H).
  - intros Hop Hsrc Hw.
    apply sqlite_integer_iff in Hop, Hsrc, Hw.
    rewrite set_weight_cases, Hop, Hsrc, Hw. simpl.
    destruct (get_weight db _ _) as [r|].
    + split; [|intros e db' H; discriminate].
      split; [intros (e & db' & H); discriminate
             | intros (_ & H & _); discriminate].
    + destruct fk; simpl.
      * destruct (references_exist db _ _); simpl.
        -- split; [|intros e db' H; discriminate].
           split; [intros (e & db' & H); discriminate
                  | intros (_ & _ & H); discriminate].
        -- split; [split; [tauto | eauto]|].
           intros e db' H. injection H as <- _. reflexivity.
      * split; [|intros e db' H; discriminate].
        split; [intros (e & db' & H); discriminate
               | intros (H & _); discriminate].
  - intros Hout.
    assert (Hw : sqlite_integer (WeightCreate.weight weight_in) = false).
    { destruct (sqlite_integer _) eqn:E; [|reflexivity].
      apply sqlite_integer_iff in E. contradiction. }
    rewrite set_weight_cases, Hw, andb_false_r. simpl.
    destruct (get_weight db _ _); reflexivity.
  - intros e db'. rewrite set_weight_cases.
    destruct (get_weight db _ _).
    + destruct (sqlite_integer _); [discriminate|].
      intros H. injection H as <- <-. tauto.
    + destruct (negb _); [intros H; injection H as <- <-; tauto|].
      destruct (fk && negb _); [|discriminate].
      intros H. injection H as <- <-. tauto.
Qed.

Lemma set_weight_stores_weight_for_pair_witness :
  let row := OperatorSourceWeight.Build 2 2 1 7 in
  let db' := snd (set_weight true autoincrement (WeightCreate.Build 2 1 7)
                    weights_db) in
  get_weight db' 2 1 = Some row
  /\ OperatorSourceWeight.weight row = 7
  /\ In row (match list_weights_for_source 1 db' with
             | (Ok rows, _) => rows
             | (Raise _, _) => []
             end)
  /\ operators db' = operators weights_db
  /\ leads db' = leads weights_db
  /\ sources db' = sources weights_db
  /\ contacts db' = contacts weights_db.
Proof.
  intros row db'.
  apply (proj1 (set_weight_stores_weight_for_pair true autoincrement
                  (WeightCreate.Build 2 1 7) weights_db) row db').
  reflexivity.
Defined.

Lemma weight_pairs_reweigh db weight_id weight :
  weight_pairs
    (with_weights db (map (reweigh weight_id weight) (operator_source_weights db)))
  = weight_pairs db.
Proof.
  unfold weight_pairs. simpl. rewrite map_map. apply map_ext.
  intros w. unfold reweigh.
  destruct (OperatorSourceWeight.id w =? weight_id); reflexivity.
Qed.

Lemma get_weight_none_not_in db operator_id source_id :
  get_weight db operator_id source_id = None ->
  ~ In (operator_id, source_id) (weight_pairs db).
Proof.
  unfold get_weight, weight_pairs.
  induction (operator_source_weights db) as [|w rest IH]; simpl; [tauto|].
  destruct (same_pair operator_id source_id w) eqn:E; [discriminate|].
  intros Hnone [Hhead | Htail]; [|exact (IH Hnone Htail)].
  injection Hhead as H1 H2.
  assert (same_pair operator_id source_id w = true)
    by (apply same_pair_iff; tauto).
  congruence.
Qed.

Lemma set_weight_pairs_distinct foreign_keys new_id weight_in db :
  NoDup (weight_pairs db) ->
  NoDup (weight_pairs (snd (set_weight foreign_keys new_id weight_in db))).
Proof.
  intros Hnd. rewrite set_weight_cases.
  destruct (get_weight db _ _) as [r|] eqn:E.
  - destruct (sqlite_integer _); [|exact Hnd].
    simpl snd. rewrite weight_pairs_reweigh. exact Hnd.
  - destruct (negb _); [exact Hnd|].
    destruct (foreign_keys && negb _); [exact Hnd|].
    simpl snd. unfold weight_pairs. simpl. rewrite map_app. simpl.
    apply NoDup_snoc; [exact Hnd|].
    apply get_weight_none_not_in. exact E.
Qed.

(** X15: set_weight keeps one row per (operator, source) pair: pairs that
    are pairwise distinct before the call are pairwise distinct after it;
    when the pair already has a row the table keeps its length and its keys,
    and when the pair has none and the call returns, exactly one row is
    added. *)
Theorem set_weight_keeps_one_row_per_pair :
  forall foreign_keys new_id weight_in db,
    let db' := snd (set_weight foreign_keys new_id weight_in db) in
    (NoDup (weight_pairs db) -> NoDup (weight_pairs db'))
    /\ (get_weight db (WeightCreate.operator_id weight_in)
          (WeightCreate.source_id weight_in) <> None ->
        map OperatorSourceWeight.id (operator_source_weights db')
        = map OperatorSourceWeight.id (operator_source_weights db)
        /\ weight_pairs db' = weight_pairs db)
    /\ (get_weight db (WeightCreate.operator_id weight_in)
          (WeightCreate.source_id weight_in) = None ->
        forall row,
          fst (set_weight foreign_keys new_id weight_in db) = Ok row ->
          operator_source_weights db'
          = (operator_source_weights db ++ [row])%list).
Proof.
  intros fk new_id weight_in db db'. subst db'. split; [|split].
  - apply set_weight_pairs_distinct.
  - intros Hsome. rewrite set_weight_cases.
    destruct (get_weight db _ _) as [r|]; [|congruence].
    destruct (sqlite_integer _); [|split; reflexivity].
    simpl snd. rewrite weight_pairs_reweigh. split; [|reflexivity].
    simpl. rewrite map_map. apply map_ext. intros w. unfold reweigh.
    destruct (OperatorSourceWeight.id w =? OperatorSourceWeight.id r);
      reflexivity.
  - intros Hnone row. rewrite set_weight_cases, Hnone.
    destruct (negb _); [discriminate|].
    destruct (fk && negb _); [discriminate|].
    simpl. intros H. injection H as <-. reflexivity.
Qed.

Lemma set_weight_keeps_one_row_per_pair_witness :
  NoDup (weight_pairs
           (snd (set_weight false autoincrement (WeightCreate.Build 2 1 7)
                   weights_db))).
Proof.
  apply (proj1 (set_weight_keeps_one_row_per_pair false autoincrement
                  (WeightCreate.Build 2 1 7) weights_db)).
  vm_compute. constructor.
  - intros [H | []]. discriminate H.
  - constructor; [intros [] | constructor].
Defined.

(** X16: with distinct weight keys, set_weight leaves the weight of every
    other pair as it was: a lookup for a pair other than the one written
    finds after the call what it found before. *)
Theorem set_weight_leaves_other_pairs :
  forall foreign_keys new_id weight_in db operator_id source_id,
    NoDup (map OperatorSourceWeight.id (operator_source_weights db)) ->
    (operator_id, source_id)
    <> (WeightCreate.operator_id weight_in, WeightCreate.source_id weight_in) ->
    get_weight (snd (set_weight foreign_keys new_id weight_in db))
      operator_id source_id
    = get_weight db operator_id source_id.
Proof.
  intros fk new_id weight_in db oid sid Hnd Hne.
  rewrite set_weight_cases.
  destruct (get_weight db (WeightCreate.operator_id weight_in) _)
    as [r|] eqn:E.
  - destruct (sqlite_integer _); [|reflexivity].
    simpl snd. rewrite get_weight_after_reweigh.
    destruct (get_weight db oid sid) as [r'|] eqn:E'; [|reflexivity].
    simpl. f_equal. unfold reweigh.
    destruct (Z.eqb_spec (OperatorSourceWeight.id r')
                (OperatorSourceWeight.id r)) as [Hid|]; [|reflexivity].
    apply find_some in E, E'. destruct E as [Hin E], E' as [Hin' E'].
    assert (r' = r) by (eapply NoDup_map_eq; eassumption). subst r'.
    apply same_pair_iff in E, E'. exfalso. apply Hne.
    destruct E as [<- <-], E' as [<- <-]. reflexivity.
  - destruct (negb _); [reflexivity|].
    destruct (fk && negb _); [reflexivity|].
    simpl snd. unfold get_weight. simpl.
    destruct (find (same_pair oid sid) (operator_source_weights db))
      as [r'|] eqn:E'.
    + apply find_app_some. exact E'.
    + rewrite (find_app_none _ _ _ E'). simpl.
      destruct (same_pair oid sid (new_weight new_id db weight_in)) eqn:Ep;
        [|reflexivity].
      apply same_pair_iff in Ep. simpl in Ep. exfalso. apply Hne.
      destruct Ep as [<- <-]. reflexivity.
Qed.

Lemma set_weight_leaves_other_pairs_witness :
  get_weight (snd (set_weight false autoincrement (WeightCreate.Build 2 1 7)
                     weights_db)) 1 1
  = get_weight weights_db 1 1.
Proof.
  apply (set_weight_leaves_other_pairs false autoincrement
           (WeightCreate.Build 2 1 7) weights_db 1 1).
  - vm_compute. constructor.
    + intros [H | []]. discriminate H.
    + constructor; [intros [] | constructor].
  - discriminate.
Defined.

(** X17: the weight written decides whether the operator can be chosen.
    After set_weight has stored a positive weight for an active operator
    whose active count is below its load limit, selection for that source
    returns an operator for every draw.  After it has stored a zero or
    negative weight, with one row per pair, selection for that source never
    returns that operator. *)
Theorem set_weight_decides_selection :
  forall foreign_keys new_id weight_in db row db',
    set_weight foreign_keys new_id weight_in db = (Ok row, db') ->
    (forall op,
        get_operator db (WeightCreate.operator_id weight_in) = Some op ->
        Operator.is_active op = true ->
        active_count db (Operator.id op) < Operator.load_limit op ->
        0 < WeightCreate.weight weight_in ->
        forall uniform,
          exists chosen,
            choose_operator_for_source uniform
              (WeightCreate.source_id weight_in) db'
            = (Ok (Some chosen), db'))
    /\ (NoDup (weight_pairs db) ->
        WeightCreate.weight weight_in <= 0 ->
        forall uniform chosen,
          fst (choose_operator_for_source uniform
                 (WeightCreate.source_id weight_in) db')
          = Ok (Some chosen) ->
          Operator.id chosen <> WeightCreate.operator_id weight_in).
Proof.
  intros fk new_id weight_in db row db' H.
  destruct (set_weight_get _ _ _ _ _ _ H) as (Hget & Hop & Hsrc & Hw).
  assert (Hframe : operators db' = operators db /\ contacts db' = contacts db).
  { pose proof (set_weight_ok_frame _ _ _ _ _ _ H). tauto. }
  destruct Hframe as [Hops Hcs].
  apply find_some in Hget. destruct Hget as [Hin _].
  split.
  - intros op Hgop Hact Hload Hpos uniform.
    rewrite choose_operator_for_source_eq.
    destruct (weighted_choice_binary64 uniform
                (candidates_of db' (WeightCreate.source_id weight_in)))
      as [chosen|] eqn:Ech; [eauto|].
    apply weighted_choice_binary64_none in Ech. exfalso.
    assert (He : eligible db' (WeightCreate.source_id weight_in) op
                   (WeightCreate.weight weight_in)).
    { exists row. unfold get_operator, active_count. rewrite Hops, Hcs.
      rewrite Hop. repeat split; assumption. }
    apply candidates_of_eligible in He. rewrite Ech in He. exact He.
  - intros Hnd Hneg uniform chosen Hch Hid.
    rewrite choose_operator_for_source_eq in Hch. simpl in Hch.
    injection Hch as Hch.
    destruct (weighted_choice_binary64_In _ _ _ Hch) as [w Hcand].
    apply candidates_of_eligible, eligible_facts in Hcand.
    destruct Hcand as (_ & _ & _ & (row' & Hin' & Hsrc' & Hop' & Hpos) & _).
    pose proof (set_weight_pairs_distinct fk new_id weight_in db Hnd) as Hnd'.
    rewrite H in Hnd'. simpl in Hnd'. unfold weight_pairs in Hnd'.
    assert (row' = row).
    { eapply NoDup_map_eq; [exact Hnd' | exact Hin' | exact Hin |].
      simpl. congruence. }
    subst row'. lia.
Qed.

Lemma set_weight_decides_selection_witness :
  exists chosen,
    choose_operator_for_source (fixed_draw (5 # 2)) 2
      (snd (set_weight false autoincrement (WeightCreate.Build 2 2 4)
              weights_db))
    = (Ok (Some chosen),
       snd (set_weight false autoincrement (WeightCreate.Build 2 2 4)
              weights_db)).
Proof.
  apply (proj1 (set_weight_decides_selection false autoincrement
                  (WeightCreate.Build 2 2 4) weights_db
                  (OperatorSourceWeight.Build 3 2 2 4)
                  (snd (set_weight false autoincrement
                          (WeightCreate.Build 2 2 4) weights_db))
                  eq_refl) op2).
  - reflexivity.
  - reflexivity.
  - vm_compute. reflexivity.
  - vm_compute. reflexivity.
Defined.

(** ** Listings and statistics *)

Lemma sum_Z_add {A} (f g : A -> Z) (l : list A) :
  sum_Z (map (fun k => f k + g k) l) = sum_Z (map f l) + sum_Z (map g l).
Proof.
  unfold sum_Z. induction l as [|k rest IH]; simpl; [reflexivity | lia].
Qed.

Lemma sum_Z_indicator_absent (ks : list Z) v :
  ~ In v ks -> sum_Z (map (fun k => Z.b2z (v =? k)) ks) = 0.
Proof.
  unfold sum_Z. induction ks as [|k rest IH]; simpl; intros H; [reflexivity|].
  rewrite IH by tauto.
  destruct (Z.eqb_spec v k) as [Heq|]; [|reflexivity].
  exfalso. apply H. left. symmetry. exact Heq.
Qed.

Lemma sum_Z_indicator (ks : list Z) v :
  NoDup ks -> In v ks -> sum_Z (map (fun k => Z.b2z (v =? k)) ks) = 1.
Proof.
  induction 1 as [|k rest Hnotin Hnd IH]; intros Hin; [contradiction|].
  change (sum_Z (map (fun k0 => Z.b2z (v =? k0)) (k :: rest)))
    with (Z.b2z (v =? k) + sum_Z (map (fun k0 => Z.b2z (v =? k0)) rest)).
  destruct Hin as [-> | Hin].
  - rewrite Z.eqb_refl, sum_Z_indicator_absent by exact Hnotin. reflexivity.
  - rewrite IH by exact Hin.
    destruct (Z.eqb_spec v k) as [->|]; [contradiction | reflexivity].
Qed.

(** Counting the items of each key and adding up counts every item that
    carries a key once, when the keys listed are distinct and include every
    key carried. *)
Lemma sum_counts_by_key {A} (key : A -> option Z) (ks : list Z) (items : list A) :
  NoDup ks ->
  (forall x k, In x items -> key x = Some k -> In k ks) ->
  sum_Z (map (fun k =>
                Z.of_nat (List.length
                            (filter (fun x => option_Z_eqb (key x) k) items)))
             ks)
  = Z.of_nat (List.length
                (filter (fun x => match key x with Some _ => true | None => false end)
                        items)).
Proof.
  intros Hnd. induction items as [|x rest IH]; intros Hkeys.
  - simpl. clear. unfold sum_Z. induction ks; simpl; [reflexivity | assumption].
  - rewrite count_cons. rewrite <- IH
      by (intros y k Hy; apply Hkeys; right; exact Hy).
    erewrite map_ext by (intros k; apply count_cons).
    rewrite sum_Z_add. f_equal.
    destruct (key x) as [v|] eqn:Ek; simpl.
    + apply sum_Z_indicator; [exact Hnd|].
      apply (Hkeys x v); [left; reflexivity | exact Ek].
    + unfold sum_Z. clear. induction ks; simpl; [reflexivity | assumption].
Qed.

Lemma filter_length_le {A} (p q : A -> bool) (l : list A) :
  (forall x, p x = true -> q x = true) ->
  (List.length (filter p l) <= List.length (filter q l))%nat.
Proof.
  intros Hpq. induction l as [|x rest IH]; simpl; [lia|].
  destruct (p x) eqn:Ep.
  - rewrite (Hpq x Ep). simpl. lia.
  - destruct (q x); simpl; lia.
Qed.

(** X18: stats_by_operator returns one row per operator, in table order,
    with its id and name, operators without contacts included; the count of a
    row is the number of contacts assigned to the operator whatever their
    status, so it is never below the operator's active count; and with
    distinct operator ids and every assignment naming a stored operator, the
    counts add up to the number of assigned contacts. *)
Theorem stats_by_operator_counts_assigned_contacts :
  forall db,
    exists stats,
      stats_by_operator db = (Ok stats, db)
      /\ map OperatorStatsOut.operator_id stats = map Operator.id (operators db)
      /\ map OperatorStatsOut.operator_name stats
         = map Operator.name (operators db)
      /\ (forall row,
             In row stats ->
             OperatorStatsOut.contacts_count row
             = Z.of_nat (List.length
                           (contacts_of_operator db
                              (OperatorStatsOut.operator_id row)))
             /\ active_count db (OperatorStatsOut.operator_id row)
                <= OperatorStatsOut.contacts_count row)
      /\ (NoDup (map Operator.id (operators db)) ->
          (forall c operator_id,
              In c (contacts db) ->
              Contact.operator_id c = Some operator_id ->
              In operator_id (map Operator.id (operators db))) ->
          sum_Z (map OperatorStatsOut.contacts_count stats)
          = Z.of_nat (List.length (filter assigned (contacts db)))).
Proof.
  intros db. eexists. split; [reflexivity|].
  split; [rewrite map_map; reflexivity|].
  split; [rewrite map_map; reflexivity|]. split.
  - intros row Hin. apply in_map_iff in Hin. destruct Hin as (o & <- & _).
    simpl. split; [reflexivity|].
    unfold active_count, contacts_of_operator.
    apply inj_le. apply filter_length_le.
    intros c Hc. apply andb_true_iff in Hc. tauto.
  - intros Hnd Hrefs. rewrite map_map. simpl.
    pose proof (sum_counts_by_key Contact.operator_id
                  (map Operator.id (operators db)) (contacts db) Hnd Hrefs)
      as Hsum.
    rewrite map_map in Hsum. exact Hsum.
Qed.

Lemma stats_by_operator_counts_assigned_contacts_witness :
  sum_Z (map OperatorStatsOut.contacts_count
           (match stats_by_operator closed_contact_db with
            | (Ok stats, _) => stats
            | (Raise _, _) => []
            end))
  = Z.of_nat (List.length (filter assigned (contacts closed_contact_db))).
Proof.
  destruct (stats_by_operator_counts_assigned_contacts closed_contact_db)
    as (stats & Hstats & _ & _ & _ & Hsum).
  rewrite Hstats. apply Hsum.
  - simpl. constructor; [simpl; tauto | constructor].
  - intros c oid [<- | [<- | []]] H; simpl in H; [|discriminate].
    injection H as <-. simpl. tauto.
Defined.

(** X19: stats_by_source returns one row per source, in table order, each
    with the number of contacts of that source; with distinct source ids and
    every contact naming a stored source, the counts add up to the number of
    contacts. *)
Theorem stats_by_source_counts_every_contact :
  forall db,
    exists stats,
      stats_by_source db = (Ok stats, db)
      /\ map SourceStatsOut.source_id stats = map Source.id (sources db)
      /\ map SourceStatsOut.source_name stats = map Source.name (sources db)
      /\ (forall row,
             In row stats ->
             SourceStatsOut.contacts_count row
             = Z.of_nat (List.length
                           (contacts_of_source db (SourceStatsOut.source_id row))))
      /\ (NoDup (map Source.id (sources db)) ->
          (forall c, In c (contacts db) ->
                     In (Contact.source_id c) (map Source.id (sources db))) ->
          sum_Z (map SourceStatsOut.contacts_count stats)
          = Z.of_nat (List.length (contacts db))).
Proof.
  intros db. eexists. split; [reflexivity|].
  split; [rewrite map_map; reflexivity|].
  split; [rewrite map_map; reflexivity|]. split.
  - intros row Hin. apply in_map_iff in Hin. destruct Hin as (s & <- & _).
    reflexivity.
  - intros Hnd Hrefs. rewrite map_map. simpl.
    pose proof (sum_counts_by_key (fun c => Some (Contact.source_id c))
                  (map Source.id (sources db)) (contacts db) Hnd) as Hsum.
    simpl in Hsum. rewrite map_map in Hsum.
    etransitivity; [apply Hsum|].
    + intros c k Hc Hk. injection Hk as <-. apply Hrefs. exact Hc.
    + f_equal. f_equal. clear. induction (contacts db); simpl; congruence.
Qed.

Lemma stats_by_source_counts_every_contact_witness :
  sum_Z (map SourceStatsOut.contacts_count
           (match stats_by_source closed_contact_db with
            | (Ok stats, _) => stats
            | (Raise _, _) => []
            end))
  = Z.of_nat (List.length (contacts closed_contact_db)).
Proof.
  destruct (stats_by_source_counts_every_contact closed_contact_db)
    as (stats & Hstats & _ & _ & _ & Hsum).
  rewrite Hstats. apply Hsum.
  - simpl. constructor; [simpl; tauto | constructor].
  - intros c [<- | [<- | []]]; simpl; tauto.
Defined.

(** X20: list_leads returns every lead once, in table order, each with the
    contacts whose [lead_id] is its id, in contact order; with distinct lead
    ids and every contact naming a stored lead, each contact is listed under
    a lead and the listed contacts are as many as the contacts table
    holds. *)
Theorem list_leads_groups_contacts_by_lead :
  forall db,
    exists listed,
      list_leads db = (Ok listed, db)
      /\ map fst listed = leads db
      /\ (forall l cs c,
             In (l, cs) listed ->
             (In c cs <-> In c (contacts db) /\ Contact.lead_id c = Lead.id l))
      /\ (NoDup (map Lead.id (leads db)) ->
          (forall c, In c (contacts db) ->
                     In (Contact.lead_id c) (map Lead.id (leads db))) ->
          sum_Z (map (fun entry => Z.of_nat (List.length (snd entry))) listed)
          = Z.of_nat (List.length (contacts db))).
Proof.
  intros db. eexists. split; [reflexivity|].
  split; [rewrite map_map; simpl; apply map_id|]. split.
  - intros l cs c Hin. apply in_map_iff in Hin.
    destruct Hin as (l0 & Heq & _). injection Heq as <- <-.
    unfold contacts_of_lead. rewrite filter_In, Z.eqb_eq. tauto.
  - intros Hnd Hrefs. rewrite map_map. simpl.
    pose proof (sum_counts_by_key (fun c => Some (Contact.lead_id c))
                  (map Lead.id (leads db)) (contacts db) Hnd) as Hsum.
    simpl in Hsum. rewrite map_map in Hsum.
    etransitivity; [apply Hsum|].
    + intros c k Hc Hk. injection Hk as <-. apply Hrefs. exact Hc.
    + f_equal. f_equal. clear. induction (contacts db); simpl; congruence.
Qed.

Lemma list_leads_groups_contacts_by_lead_witness :
  sum_Z (map (fun entry => Z.of_nat (List.length (snd entry)))
           (match list_leads closed_contact_db with
            | (Ok listed, _) => listed
            | (Raise _, _) => []
            end))
  = Z.of_nat (List.length (contacts closed_contact_db)).
Proof.
  destruct (list_leads_groups_contacts_by_lead closed_contact_db)
    as (listed & Hlisted & _ & _ & Hsum).
  rewrite Hlisted. apply Hsum.
  - simpl. constructor; [simpl; tauto | constructor].
  - intros c [<- | [<- | []]]; simpl; tauto.
Defined.

(** ** The lead registry and the capacity tracker, end to end *)

(** X21: called on its own, get_or_create_lead never raises: the insert is
    only tried after the lookup found nothing, so the unique constraint
    cannot reject it.  The lead returned carries the external id asked for;
    when the id was absent exactly one lead is appended, with the name given
    (absent or empty included); when it was present no row is added; and no
    other table is touched. *)
Theorem get_or_create_lead_returns_lead_of_external_id :
  forall new_id external_id name db,
    exists lead db',
      get_or_create_lead new_id external_id name db = (Ok lead, db')
      /\ Lead.external_id lead = external_id
      /\ (get_lead_by_external_id db external_id = None ->
          leads db' = (leads db ++ [lead])%list /\ Lead.name lead = name)
      /\ (get_lead_by_external_id db external_id <> None ->
          List.length (leads db') = List.length (leads db))
      /\ operators db' = operators db
      /\ sources db' = sources db
      /\ operator_source_weights db' = operator_source_weights db
      /\ contacts db' = contacts db.
Proof.
  intros new_id eid name db. rewrite get_or_create_lead_cases.
  destruct (get_lead_by_external_id db eid) as [l0|] eqn:E.
  - assert (Heid : Lead.external_id l0 = eid).
    { apply find_some in E. destruct E as [_ E].
      apply String.eqb_eq. exact E. }
    destruct (truthy name && negb (truthy (Lead.name l0))).
    + eexists _, _. split; [reflexivity|]. simpl.
      split; [exact Heid|]. split; [discriminate|].
      split; [intros _; apply length_map|]. repeat split.
    + eexists _, _. split; [reflexivity|].
      split; [exact Heid|]. split; [discriminate|]. repeat split.
  - eexists _, _. split; [reflexivity|]. simpl.
    split; [reflexivity|]. split; [intros _; split; reflexivity|].
    split; [congruence|]. repeat split.
Qed.

Lemma get_or_create_lead_returns_lead_of_external_id_witness :
  leads (snd (get_or_create_lead autoincrement "user_2" None load_limit_db))
  = (leads load_limit_db ++ [Lead.Build 2 "user_2" None])%list
  /\ Lead.name (Lead.Build 2 "user_2" None) = None.
Proof.
  destruct (get_or_create_lead_returns_lead_of_external_id autoincrement
              "user_2" None load_limit_db)
    as (lead & db' & Hcall & _ & Hnew & _).
  rewrite Hcall. injection Hcall as Hlead _. subst lead.
  apply Hnew. reflexivity.
Defined.

Lemma closing_frees_count contact_id db c operator_id :
  NoDup (map Contact.id (contacts db)) ->
  get_contact db contact_id = Some c ->
  Contact.operator_id c = Some operator_id ->
  Contact.status c = active ->
  active_count
    (with_contacts db (map (restatus contact_id closed) (contacts db)))
    operator_id
  = active_count db operator_id - 1.
Proof.
  intros Hnd E Hop Hst.
  pose proof (count_after_restatus (counts_for operator_id) contact_id closed
                (contacts db) c Hnd E) as Hcount.
  assert (Hbefore : counts_for operator_id c = true).
  { unfold counts_for. rewrite Hop, Hst. simpl. rewrite Z.eqb_refl.
    reflexivity. }
  assert (Hafter : counts_for operator_id (Contact.set_status c closed) = false).
  { unfold counts_for. simpl. apply andb_false_r. }
  rewrite Hbefore, Hafter in Hcount. simpl Z.b2z in Hcount.
  change (active_count
            (with_contacts db (map (restatus contact_id closed) (contacts db)))
            operator_id)
    with (Z.of_nat
            (List.length
               (filter (counts_for operator_id)
                  (map (restatus contact_id closed) (contacts db))))).
  change (active_count db operator_id)
    with (Z.of_nat (List.length (filter (counts_for operator_id) (contacts db)))).
  lia.
Qed.

(** X22: closing a contact frees its operator: for an active operator with
    a positive weight for a source whose active count has reached, but not
    passed, its load limit, after update_contact_status has closed one of its
    active contacts (contact ids distinct), selection for that source returns
    an operator for every draw. *)
Theorem closing_contact_makes_operator_eligible :
  forall contact_id db c op row,
    NoDup (map Contact.id (contacts db)) ->
    get_contact db contact_id = Some c ->
    Contact.operator_id c = Some (Operator.id op) ->
    Contact.status c = active ->
    get_operator db (Operator.id op) = Some op ->
    Operator.is_active op = true ->
    active_count db (Operator.id op) <= Operator.load_limit op ->
    In row (operator_source_weights db) ->
    OperatorSourceWeight.operator_id row = Operator.id op ->
    0 < OperatorSourceWeight.weight row ->
    exists c' db',
      update_contact_status contact_id closed db = (Ok c', db')
      /\ active_count db' (Operator.id op) < Operator.load_limit op
      /\ forall uniform,
           exists chosen,
             choose_operator_for_source uniform
               (OperatorSourceWeight.source_id row) db'
             = (Ok (Some chosen), db').
Proof.
  intros cid db c op row Hnd E Hcop Hst Hgop Hact Hload Hin Hrop Hpos.
  eexists _, _. split; [apply (update_contact_status_found cid closed db c E)|].
  pose proof (closing_frees_count cid db c (Operator.id op) Hnd E Hcop Hst)
    as Hcount.
  split; [lia|]. intros uniform. rewrite choose_operator_for_source_eq.
  destruct (weighted_choice_binary64 uniform _) as [chosen|] eqn:Ech; [eauto|].
  apply weighted_choice_binary64_none in Ech. exfalso.
  assert (He : eligible
                 (with_contacts db (map (restatus cid closed) (contacts db)))
                 (OperatorSourceWeight.source_id row) op
                 (OperatorSourceWeight.weight row)).
  { exists row. repeat split; try assumption.
    - rewrite Hrop. exact Hgop.
    - lia. }
  apply candidates_of_eligible in He. rewrite Ech in He. exact He.
Qed.

Lemma closing_contact_makes_operator_eligible_witness :
  exists c' db',
    update_contact_status 1 closed load_limit_db = (Ok c', db')
    /\ active_count db' (Operator.id limited_op) < Operator.load_limit limited_op
    /\ forall uniform,
         exists chosen,
           choose_operator_for_source uniform 1 db' = (Ok (Some chosen), db').
Proof.
  apply (closing_contact_makes_operator_eligible 1 load_limit_db
           (Contact.Build 1 1 1 (Some 1) active 0 (Some "first contact"))
           limited_op (OperatorSourceWeight.Build 1 1 1 10)).
  - simpl. constructor; [simpl; tauto | constructor].
  - reflexivity.
  - reflexivity.
  - reflexivity.
  - reflexivity.
  - reflexivity.
  - vm_compute. discriminate.
  - simpl. tauto.
  - reflexivity.
  - reflexivity.
Defined.
